(** * finetune.py: launching the fine-tuning of a Fourier neural operator

    A shallow embedding of [src/finetune.py].  The script is glue code over
    PyYAML, argparse, torch and the repository's [train_utils] and [models]
    packages.  Everything the script itself does is embedded here: the
    control flow of [subprocess_fn], the dictionary lookups on the loaded
    configuration, the parameter-freezing loop and the dispatch in the main
    block.  Library routines are taken from a record of oracles, each of
    which either returns a value or raises. *)

From Stdlib Require Import ZArith Lia Ascii.
From stdpp Require Import base list strings.

Set Warnings "-register-all".

Local Open Scope string_scope.
Local Open Scope list_scope.
Local Open Scope Z_scope.

(** ** Python values *)

(** What [yaml.load] can hand back: scalars, sequences and mappings.  A
    mapping keeps its items in source order; the first binding of a key is
    the one a lookup sees. A float is kept as its literal. *)
Inductive yaml : Type :=
| YNull
| YBool (b : bool)
| YInt (n : Z)
| YFloat (literal : string)
| YStr (s : string)
| YSeq (items : list yaml)
| YMap (items : list (yaml * yaml)).

(** The values [parse_args] can store in the namespace. *)
Inductive pyval : Type :=
| PNone
| PInt (n : Z)
| PStr (s : string)
| PList (items : list pyval).

(** Handles of library objects the script only passes around: the data
    loader, tensors, the optimizer, the scheduler, a state dict. *)
Definition obj := nat.

(** A parameter tensor, identified by its handle. *)
Definition param := nat.

(** Exceptions.  [LibraryError] stands for whatever a framework routine
    raises. *)
Inductive exn : Type :=
| KeyError (key : string)
| TypeError
| IndexError
| AttributeError (name : string)
| LibraryError (code : nat).

Notation "'result' A" := (sum exn A) (at level 10, only parsing).

(** *** Subscripts and membership on configuration data *)

Definition is_key (k : string) (y : yaml) : bool :=
  match y with
  | YStr s => bool_decide (s = k)
  | _ => false
  end.

Fixpoint assoc (k : string) (items : list (yaml * yaml)) : option yaml :=
  match items with
  | [] => None
  | (k', v) :: rest => if is_key k k' then Some v else assoc k rest
  end.

(** [d[k]] with a string key: a mapping yields the bound value or
    [KeyError]; a sequence or a string refuses a string index, the other
    scalars are not subscriptable. *)
Definition getitem (d : yaml) (k : string) : result yaml :=
  match d with
  | YMap items =>
      match assoc k items with
      | Some v => inr v
      | None => inl (KeyError k)
      end
  | _ => inl TypeError
  end.

Fixpoint is_prefix (p s : string) : bool :=
  match p, s with
  | EmptyString, _ => true
  | String a p', String b s' => bool_decide (a = b) && is_prefix p' s'
  | String _ _, EmptyString => false
  end.

Fixpoint is_substring (p s : string) : bool :=
  is_prefix p s ||
  match s with
  | EmptyString => false
  | String _ s' => is_substring p s'
  end.

(** [k in d]: key membership on a mapping, element membership on a
    sequence, substring test on a string, [TypeError] on the other
    scalars. *)
Definition contains (k : string) (d : yaml) : result bool :=
  match d with
  | YMap items => inr (bool_decide (is_Some (assoc k items)))
  | YSeq items => inr (existsb (is_key k) items)
  | YStr s => inr (is_substring k s)
  | _ => inl TypeError
  end.

(** ** torch modules *)

(** An [nn.Module] as the script sees it: the parameters it registers
    itself and its registered submodules by name.  [ModuleList] marks the
    containers that support integer indexing. *)
Inductive mkind : Type := ModuleList | Layer.

Inductive module : Type :=
| Module (kind : mkind) (own : list param) (children : list (string * module)).

Definition kind_of (m : module) : mkind :=
  match m with Module k _ _ => k end.

Definition children_of (m : module) : list (string * module) :=
  match m with Module _ _ ch => ch end.

Fixpoint all_params (m : module) : list param :=
  match m with
  | Module _ own ch =>
      own ++ (fix go (l : list (string * module)) : list param :=
                match l with
                | [] => []
                | (_, c) :: l' => all_params c ++ go l'
                end) ch
  end.

(** Keeps the first occurrence of each element, like the memo set of
    [Module.parameters()]. *)
Fixpoint dedup (seen : list param) (l : list param) : list param :=
  match l with
  | [] => []
  | p :: l' =>
      if bool_decide (p ∈ seen) then dedup seen l' else p :: dedup (p :: seen) l'
  end.

(** [m.parameters()]: own parameters first, then those of the submodules
    in registration order, each tensor once. *)
Definition parameters (m : module) : list param :=
  dedup [] (all_params m).

Fixpoint lookup_child (name : string) (ch : list (string * module)) : option module :=
  match ch with
  | [] => None
  | (n, c) :: rest => if bool_decide (n = name) then Some c else lookup_child name rest
  end.

(** [m.name] for a submodule name: [nn.Module.__getattr__] looks the name
    up among the registered submodules of [m] and raises [AttributeError]
    when there is none. *)
Definition getattr (m : module) (name : string) : result module :=
  match lookup_child name (children_of m) with
  | Some c => inr c
  | None => inl (AttributeError name)
  end.

(** [m[-1]]: the last registered submodule of a [ModuleList]. *)
Definition getlast (m : module) : result module :=
  match kind_of m with
  | ModuleList =>
      match last (children_of m) with
      | Some (_, c) => inr c
      | None => inl IndexError
      end
  | Layer => inl TypeError
  end.

(** [DistributedDataParallel(m, ...)]: the wrapper registers the wrapped
    network as its only submodule, under the name [module], has no
    parameters of its own and inherits [nn.Module]'s attribute lookup. *)
Definition DDP_wrapper (m : module) : module :=
  Module Layer [] [("module", m)].

(** ** Runs: events, stores and the script monad *)

(** The three lines the script prints. *)
Inductive message : Type :=
| MsgRunning (rank : Z)
| MsgWeightsLoaded (path : yaml)
| MsgDone (rank : Z).

(** The keyword arguments of the [NSLoader] constructor. *)
Record NSLoader_args : Type := {
  datapath1 : yaml;
  datapath2 : option yaml;
  nx : yaml;
  nt : yaml;
  sub : yaml;
  sub_t : yaml;
  N : yaml;
  t_interval : yaml
}.

(** The arguments of the call to [train]. *)
Record train_args : Type := {
  t_model : module;
  t_loader : obj;
  t_train_loader : obj;
  t_optimizer : obj;
  t_scheduler : obj;
  t_forcing : obj;
  t_config : yaml;
  t_rank : Z;
  t_log : bool;
  t_project : yaml;
  t_group : yaml;
  t_profile : bool
}.

(** Every operation of [subprocess_fn] that can raise, with its
    arguments. *)
Inductive event : Type :=
| ESetup (rank world_size : Z)
| EPrint (msg : message)
| EOpen (path : pyval)
| EYamlLoad (stream : obj)
| EGetItem (d : yaml) (key : string)
| EContains (key : string) (d : yaml)
| ENSLoader (a : NSLoader_args)
| EMakeDataset (loader : obj) (n_sample start train : yaml)
| EDataSampler (trainset : obj) (shuffle : yaml) (distributed : bool)
| EDataLoader (trainset : obj) (batch_size : yaml) (sampler : obj) (drop_last : bool)
| EFNN3d (modes1 modes2 modes3 fc_dim layers : yaml)
| EModuleTo (m : module) (device : Z)
| ETorchLoad (path : yaml)
| EObjGetItem (o : obj) (key : string)
| ELoadStateDict (m : module) (state_dict : obj)
| EDDP (m : module) (device_ids : list Z) (broadcast_buffers : bool)
| ERequiresGrad (m : module) (flag : bool)
| EGetAttr (receiver : module) (name : string)
| EGetLast (receiver : module)
| EAdam (params : list param) (betas : yaml * yaml) (lr : yaml)
| EMultiStepLR (optimizer : obj) (milestones gamma : yaml)
| ELoaderS (loader : obj)
| EGetForcing (S : obj)
| ETensorTo (t : obj) (device : Z)
| ETrain (a : train_args)
| ECleanup.

(** What an operation returned. *)
Inductive retval : Type :=
| RNone
| RBool (b : bool)
| RYaml (y : yaml)
| RObj (o : obj)
| RModule (m : module).

(** One line of the log of a run. *)
Inductive entry : Type :=
| Returned (e : event) (v : retval)
| Raised (e : event) (x : exn).

Definition event_of (en : entry) : event :=
  match en with Returned e _ | Raised e _ => e end.

(** The part of the interpreter state the script changes: the
    [requires_grad] flag of every parameter tensor and the state dict that
    [load_state_dict] put into the network, if any. *)
Record store : Type := {
  flags : param -> bool;
  weights : option obj
}.

(** The outcome of running a piece of the script from a store: the
    operations performed, in order, the store left behind and the value
    or the exception. *)
Record run (A : Type) : Type := {
  events : list entry;
  final : store;
  outcome : result A
}.
Arguments events {A} _.
Arguments final {A} _.
Arguments outcome {A} _.

Definition M (A : Type) : Type := store -> run A.

Definition ret {A} (a : A) : M A :=
  fun s => {| events := []; final := s; outcome := inr a |}.

Definition bind {A B} (m : M A) (k : A -> M B) : M B :=
  fun s =>
    let r := m s in
    match outcome r with
    | inl x => {| events := events r; final := final r; outcome := inl x |}
    | inr a =>
        let r' := k a (final r) in
        {| events := events r ++ events r'; final := final r'; outcome := outcome r' |}
    end.

(** An operation whose result the environment decides: it is logged with
    what it returned or raised. *)
Definition call {A} (e : event) (inj : A -> retval) (r : result A) : M A :=
  fun s =>
    match r with
    | inr a => {| events := [Returned e (inj a)]; final := s; outcome := inr a |}
    | inl x => {| events := [Raised e x]; final := s; outcome := inl x |}
    end.

Definition modify (f : store -> store) : M unit :=
  fun s => {| events := []; final := f s; outcome := inr tt |}.

Definition get_flags : M (param -> bool) :=
  fun s => {| events := []; final := s; outcome := inr (flags s) |}.

Declare Scope script_scope.
Delimit Scope script_scope with script.
Notation "x <- m ;; k" := (bind m (fun x => k))
  (at level 100, m at next level, right associativity,
   format "'[v' x  <-  m  ;;  '/' k ']'") : script_scope.
Notation "m ;;; k" := (bind m (fun _ => k))
  (at level 100, right associativity,
   format "'[v' m  ;;;  '/' k ']'") : script_scope.
Local Open Scope script_scope.

Definition RUnit (_ : unit) : retval := RNone.

(** [config[key]] and [key in config], logged. *)
Definition item (d : yaml) (key : string) : M yaml :=
  call (EGetItem d key) RYaml (getitem d key).

Definition has_key (key : string) (d : yaml) : M bool :=
  call (EContains key d) RBool (contains key d).

Definition print (msg : message) : M unit :=
  call (EPrint msg) RUnit (inr tt).

(** [m.name] and [m[-1]], logged. *)
Definition attr (m : module) (name : string) : M module :=
  call (EGetAttr m name) RModule (getattr m name).

Definition last_of (m : module) : M module :=
  call (EGetLast m) RModule (getlast m).

Definition set_flags (ps : list param) (flag : bool) (f : param -> bool) : param -> bool :=
  fun p => if bool_decide (p ∈ ps) then flag else f p.

(** Modelled from the spec: [train_utils.utils.requires_grad] is not among
    the sources; the spec has it freeze or unfreeze a model, so it sets the
    [requires_grad] flag of every parameter of the module it is given. *)
Definition requires_grad (m : module) (flag : bool) : M unit :=
  call (ERequiresGrad m flag) RUnit (inr tt) ;;;
  modify (fun s => {| flags := set_flags (parameters m) flag (flags s);
                      weights := weights s |}).

(** ** The libraries *)

(** The routines [subprocess_fn] calls, as oracles: what each returns, or
    the exception it raises, for the arguments it is given. *)
Record library : Type := {
  setup : Z -> Z -> result unit;
  cleanup : result unit;
  open : pyval -> result obj;
  yaml_load : obj -> result yaml;
  NSLoader : NSLoader_args -> result obj;
  make_dataset : obj -> yaml -> yaml -> yaml -> result obj;
  data_sampler : obj -> yaml -> bool -> result obj;
  DataLoader : obj -> yaml -> obj -> bool -> result obj;
  FNN3d : yaml -> yaml -> yaml -> yaml -> yaml -> result module;
  module_to : module -> Z -> result unit;
  torch_load : yaml -> result obj;
  obj_getitem : obj -> string -> result obj;
  load_state_dict : module -> obj -> result unit;
  DDP : module -> list Z -> bool -> result unit;
  Adam : list param -> yaml * yaml -> yaml -> result obj;
  MultiStepLR : obj -> yaml -> yaml -> result obj;
  loader_S : obj -> result obj;
  get_forcing : obj -> result obj;
  tensor_to : obj -> Z -> result obj;
  train : train_args -> result unit
}.

(** The namespace [parse_args] returns, with the [distributed] attribute
    the main block adds to it. *)
Record args : Type := {
  config_path : pyval;
  log : bool;
  num_gpus : Z;
  distributed : bool
}.

(** ** subprocess_fn *)

Section Script.

Variable L : library.

(** Lines 25-27.  The [with] block closes the file on the way out and lets
    an exception of [yaml.load] through. *)
Definition load_config (a : args) : M yaml :=
  stream <- call (EOpen (config_path a)) RObj (open L (config_path a)) ;;
  call (EYamlLoad stream) RYaml (yaml_load L stream).

(** Lines 30-51, [# construct dataloader]. *)
Definition construct_dataloader (a : args) (config : yaml) : M (obj * obj) :=
  data_config <- item config "data" ;;
  with2 <- has_key "datapath2" data_config ;;
  loader <-
    (if with2 : bool then
       v_datapath <- item data_config "datapath" ;;
       v_datapath2 <- item data_config "datapath2" ;;
       v_nx <- item data_config "nx" ;;
       v_nt <- item data_config "nt" ;;
       v_sub <- item data_config "sub" ;;
       v_sub_t <- item data_config "sub_t" ;;
       v_total_num <- item data_config "total_num" ;;
       v_time_interval <- item data_config "time_interval" ;;
       let ns := {| datapath1 := v_datapath; datapath2 := Some v_datapath2;
                    nx := v_nx; nt := v_nt; sub := v_sub; sub_t := v_sub_t;
                    N := v_total_num; t_interval := v_time_interval |} in
       call (ENSLoader ns) RObj (NSLoader L ns)
     else
       v_datapath <- item data_config "datapath" ;;
       v_nx <- item data_config "nx" ;;
       v_nt <- item data_config "nt" ;;
       v_sub <- item data_config "sub" ;;
       v_sub_t <- item data_config "sub_t" ;;
       v_total_num <- item data_config "total_num" ;;
       v_time_interval <- item data_config "time_interval" ;;
       let ns := {| datapath1 := v_datapath; datapath2 := None;
                    nx := v_nx; nt := v_nt; sub := v_sub; sub_t := v_sub_t;
                    N := v_total_num; t_interval := v_time_interval |} in
       call (ENSLoader ns) RObj (NSLoader L ns)) ;;
  v_n_sample <- item data_config "n_sample" ;;
  v_offset <- item data_config "offset" ;;
  v_shuffle <- item data_config "shuffle" ;;
  trainset <- call (EMakeDataset loader v_n_sample v_offset v_shuffle) RObj
                (make_dataset L loader v_n_sample v_offset v_shuffle) ;;
  train_config <- item config "train" ;;
  v_batchsize <- item train_config "batchsize" ;;
  v_shuffle' <- item data_config "shuffle" ;;
  sampler <- call (EDataSampler trainset v_shuffle' (distributed a)) RObj
               (data_sampler L trainset v_shuffle' (distributed a)) ;;
  train_loader <- call (EDataLoader trainset v_batchsize sampler true) RObj
                    (DataLoader L trainset v_batchsize sampler true) ;;
  ret (loader, train_loader).

(** Lines 54-58, [# construct model].  [config['model']] is looked up anew
    for each keyword; [Module.to] moves the network in place and returns
    it. *)
Definition construct_model (rank : Z) (config : yaml) : M module :=
  c1 <- item config "model" ;; v_modes1 <- item c1 "modes1" ;;
  c2 <- item config "model" ;; v_modes2 <- item c2 "modes2" ;;
  c3 <- item config "model" ;; v_modes3 <- item c3 "modes3" ;;
  c4 <- item config "model" ;; v_fc_dim <- item c4 "fc_dim" ;;
  c5 <- item config "model" ;; v_layers <- item c5 "layers" ;;
  model <- call (EFNN3d v_modes1 v_modes2 v_modes3 v_fc_dim v_layers) RModule
             (FNN3d L v_modes1 v_modes2 v_modes3 v_fc_dim v_layers) ;;
  call (EModuleTo model rank) RUnit (module_to L model rank) ;;;
  ret model.

(** Lines 60-64. *)
Definition load_checkpoint (config : yaml) (model : module) : M unit :=
  train_config <- item config "train" ;;
  has_ckpt <- has_key "ckpt" train_config ;;
  if has_ckpt : bool then
    train_config' <- item config "train" ;;
    ckpt_path <- item train_config' "ckpt" ;;
    ckpt <- call (ETorchLoad ckpt_path) RObj (torch_load L ckpt_path) ;;
    state_dict <- call (EObjGetItem ckpt "model") RObj (obj_getitem L ckpt "model") ;;
    call (ELoadStateDict model state_dict) RUnit (load_state_dict L model state_dict) ;;;
    modify (fun s => {| flags := flags s; weights := Some state_dict |}) ;;;
    print (MsgWeightsLoaded ckpt_path)
  else ret tt.

(** Lines 66-67: the name [model] is rebound to the wrapper. *)
Definition wrap_model (rank : Z) (a : args) (model : module) : M module :=
  if distributed a then
    call (EDDP model [rank] false) RUnit (DDP L model [rank] false) ;;;
    ret (DDP_wrapper model)
  else ret model.

(** Lines 73-81, [# Only finetune the last two layers]. *)
Definition select_params (model : module) : M (list param) :=
  requires_grad model false ;;;
  sp_convs <- attr model "sp_convs" ;;
  sp_conv <- last_of sp_convs ;;
  requires_grad sp_conv true ;;;
  ws <- attr model "ws" ;;
  w <- last_of ws ;;
  requires_grad w true ;;;
  fc1 <- attr model "fc1" ;;
  requires_grad fc1 true ;;;
  fc2 <- attr model "fc2" ;;
  requires_grad fc2 true ;;;
  rg <- get_flags ;;
  ret (filter (fun p => rg p = true) (parameters model)).

(** Lines 83-87. *)
Definition construct_optimizer (config : yaml) (params_to_update : list param)
  : M (obj * obj) :=
  c1 <- item config "train" ;; v_base_lr <- item c1 "base_lr" ;;
  let betas := (YFloat "0.9", YFloat "0.999") in
  optimizer <- call (EAdam params_to_update betas v_base_lr) RObj
                 (Adam L params_to_update betas v_base_lr) ;;
  c2 <- item config "train" ;; v_milestones <- item c2 "milestones" ;;
  c3 <- item config "train" ;; v_gamma <- item c3 "scheduler_gamma" ;;
  scheduler <- call (EMultiStepLR optimizer v_milestones v_gamma) RObj
                 (MultiStepLR L optimizer v_milestones v_gamma) ;;
  ret (optimizer, scheduler).

(** Lines 88-97. *)
Definition run_train (rank : Z) (a : args) (config : yaml) (model : module)
    (loader train_loader optimizer scheduler : obj) : M unit :=
  S <- call (ELoaderS loader) RObj (loader_S L loader) ;;
  f <- call (EGetForcing S) RObj (get_forcing L S) ;;
  forcing <- call (ETensorTo f rank) RObj (tensor_to L f rank) ;;
  c1 <- item config "others" ;; v_project <- item c1 "project" ;;
  c2 <- item config "others" ;; v_group <- item c2 "group" ;;
  let ta := {| t_model := model; t_loader := loader; t_train_loader := train_loader;
               t_optimizer := optimizer; t_scheduler := scheduler;
               t_forcing := forcing; t_config := config; t_rank := rank;
               t_log := log a; t_project := v_project; t_group := v_group;
               t_profile := true |} in
  call (ETrain ta) RUnit (train L ta).

Definition subprocess_fn (rank : Z) (a : args) : M unit :=
  (if distributed a
   then call (ESetup rank (num_gpus a)) RUnit (setup L rank (num_gpus a))
   else ret tt) ;;;
  print (MsgRunning rank) ;;;
  config <- load_config a ;;
  d <- construct_dataloader a config ;;
  let '(loader, train_loader) := d in
  model <- construct_model rank config ;;
  load_checkpoint config model ;;;
  model <- wrap_model rank a model ;;
  params_to_update <- select_params model ;;
  o <- construct_optimizer config params_to_update ;;
  let '(optimizer, scheduler) := o in
  run_train rank a config model loader train_loader optimizer scheduler ;;;
  (if distributed a
   then call ECleanup RUnit (cleanup L)
   else ret tt) ;;;
  print (MsgDone rank).

End Script.

(** ** argparse *)

(** The optional-argument part of [argparse] (CPython 3.11), for parsers
    whose actions are [store] with one argument, [store_true] and [help]:
    the kinds lines 106-109 create.  The two builtins the parser relies on
    for its input, [int] on a string and the regular expression that
    recognises a negative number, are parameters. *)
Module Argparse.

Section Parser.

Context {NS : Type}.

Inductive action_kind : Type :=
| Store (type : string -> option pyval) (setattr : pyval -> NS -> NS)
| StoreTrue (setattr : NS -> NS)
| Help.

Record action : Type := {
  option_strings : list string;
  kind : action_kind
}.

(** A parser: its actions in the order they were added and the namespace
    holding their defaults. *)
Record parser : Type := {
  actions : list action;
  defaults : NS
}.

Inductive parse_result : Type :=
| Parsed (ns : NS)
| Exit (status : Z).

Variable negative_number_like : string -> bool.

(** [_option_string_actions], in insertion order. *)
Definition option_table (p : parser) : list (string * action) :=
  flat_map (fun a => map (fun o => (o, a)) (option_strings a)) (actions p).

Fixpoint find_option (o : string) (t : list (string * action)) : option action :=
  match t with
  | [] => None
  | (o', a) :: t' => if bool_decide (o' = o) then Some a else find_option o t'
  end.

(** [s.split('=', 1)] when [s] contains an equal sign. *)
Fixpoint split_eq (s : string) : option (string * string) :=
  match s with
  | EmptyString => None
  | String c s' =>
      if bool_decide (c = "="%char) then Some (EmptyString, s')
      else match split_eq s' with
           | Some (l, r) => Some (String c l, r)
           | None => None
           end
  end.

Definition second_is_dash (s : string) : bool :=
  match s with
  | String _ (String c _) => bool_decide (c = "-"%char)
  | _ => false
  end.

(** How one command-line word is read: as an argument (['A']), as an
    option (['O']) with the action it selects, if any, and the argument
    glued to it, or as an ambiguous abbreviation, which is an error. *)
Inductive word_class : Type :=
| Positional
| Optional (a : option action) (option_string : string) (explicit_arg : option string)
| Ambiguous.

Definition get_option_tuples (p : parser) (w : string)
  : list (action * string * option string) :=
  if second_is_dash w then
    let '(option_prefix, explicit_arg) :=
      match split_eq w with
      | Some (l, r) => (l, Some r)
      | None => (w, None)
      end in
    flat_map (fun '(o, a) =>
                if is_prefix option_prefix o then [(a, o, explicit_arg)] else [])
             (option_table p)
  else
    let short_option_prefix := String.substring 0 2 w in
    let short_explicit_arg := String.substring 2 (String.length w - 2) w in
    flat_map (fun '(o, a) =>
                if bool_decide (o = short_option_prefix)
                then [(a, o, Some short_explicit_arg)]
                else if is_prefix w o then [(a, o, None)] else [])
             (option_table p).

Definition parse_optional (p : parser) (w : string) : word_class :=
  match w with
  | EmptyString => Positional
  | String c rest =>
      if negb (bool_decide (c = "-"%char)) then Positional
      else
        match find_option w (option_table p) with
        | Some a => Optional (Some a) w None
        | None =>
            if bool_decide (rest = EmptyString) then Positional
            else
              let by_eq :=
                match split_eq w with
                | Some (o, e) =>
                    match find_option o (option_table p) with
                    | Some a => Some (Optional (Some a) o (Some e))
                    | None => None
                    end
                | None => None
                end in
              match by_eq with
              | Some c => c
              | None =>
                  match get_option_tuples p w with
                  | _ :: _ :: _ => Ambiguous
                  | [(a, o, e)] => Optional (Some a) o e
                  | [] =>
                      if negative_number_like w then Positional
                      else if is_substring " " w then Positional
                      else Optional None w None
                  end
              end
        end
  end.

(** The pattern of the command line; [None] stands for ['--'], after
    which every word is an argument. *)
Fixpoint classify (p : parser) (argv : list string)
  : option (list (string * option word_class)) :=
  match argv with
  | [] => Some []
  | w :: argv' =>
      if bool_decide (w = "--")
      then Some ((w, None) :: map (fun w' => (w', Some Positional)) argv')
      else
        match parse_optional p w with
        | Ambiguous => None
        | c =>
            match classify p argv' with
            | Some l => Some ((w, Some c) :: l)
            | None => None
            end
        end
  end.

(** The words an option without a glued argument takes from what follows
    it: [store] wants exactly one argument word, the others none.  The
    flag tells whether the next word was used up. *)
Definition take_following (a : action) (rest : list (string * option word_class))
  : option (list string * bool) :=
  match kind a with
  | Store _ _ =>
      match rest with
      | (v, Some Positional) :: _ => Some ([v], true)
      | _ => None
      end
  | _ => Some ([], false)
  end.

(** An option with a glued argument: [store] takes it; a single-dash flag
    reads it as further single-dash flags ([-xyz] is [-x -y -z]). *)
Fixpoint take_explicit (p : parser) (a : action) (o : string) (e : string)
    (rest : list (string * option word_class))
  : option (list (action * list string) * bool) :=
  match kind a with
  | Store _ _ => Some ([(a, [e])], false)
  | _ =>
      if second_is_dash o then None
      else
        match e with
        | EmptyString => None
        | String c e' =>
            let o' := String "-" (String c EmptyString) in
            match find_option o' (option_table p) with
            | None => None
            | Some a' =>
                match e' with
                | EmptyString =>
                    match take_following a' rest with
                    | Some (vs, used) => Some ([(a, []); (a', vs)], used)
                    | None => None
                    end
                | _ =>
                    match take_explicit p a' o' e' rest with
                    | Some (l, used) => Some ((a, []) :: l, used)
                    | None => None
                    end
                end
            end
        end
  end.

Fixpoint remove_first (x : string) (l : list string) : list string :=
  match l with
  | [] => []
  | y :: l' => if bool_decide (y = x) then l' else y :: remove_first x l'
  end.

(** [_get_values] for a [store] action: the first ['--'] among its words
    is dropped; a single word left is converted, anything else gives the
    list of the converted words. *)
Definition get_values (type : string -> option pyval) (vs : list string)
  : option pyval :=
  match remove_first "--" vs with
  | [v] => type v
  | vs' => PList <$> mapM type vs'
  end.

(** [take_action] for the actions of one word, in order. *)
Fixpoint take_actions (l : list (action * list string)) (ns : NS) : parse_result :=
  match l with
  | [] => Parsed ns
  | (a, vs) :: l' =>
      match kind a with
      | Store type setattr =>
          match get_values type vs with
          | Some v => take_actions l' (setattr v ns)
          | None => Exit 2
          end
      | StoreTrue setattr => take_actions l' (setattr ns)
      | Help => Exit 0
      end
  end.

(** The actions of one option word with the words each takes, and
    whether the next word of the line was used up. *)
Definition taken_by (p : parser) (a : action) (o : string) (e : option string)
    (rest : list (string * option word_class))
  : option (list (action * list string) * bool) :=
  match e with
  | Some e' => take_explicit p a o e' rest
  | None =>
      match take_following a rest with
      | Some (vs, used) => Some ([(a, vs)], used)
      | None => None
      end
  end.

(** The main loop of [_parse_known_args] followed by the check of
    [parse_args]: words that no option takes are left over, and left-over
    words are an error once the whole command line has been read. *)
Fixpoint consume (p : parser) (ws : list (string * option word_class))
    (extras : list string) (ns : NS) : parse_result :=
  match ws with
  | [] => match extras with [] => Parsed ns | _ => Exit 2 end
  | (w, Some (Optional (Some a) o e)) :: rest =>
      match taken_by p a o e rest with
      | None => Exit 2
      | Some (l, used) =>
          match take_actions l ns with
          | Parsed ns' =>
              match rest with
              | _ :: rest' => if used : bool then consume p rest' extras ns'
                              else consume p rest extras ns'
              | [] => consume p rest extras ns'
              end
          | Exit c => Exit c
          end
      end
  | (w, _) :: rest => consume p rest (extras ++ [w]) ns
  end.

Definition parse_args (p : parser) (argv : list string) : parse_result :=
  match classify p argv with
  | None => Exit 2
  | Some ws => consume p ws [] (defaults p)
  end.

End Parser.

Arguments action : clear implicits.
Arguments action_kind : clear implicits.
Arguments parser : clear implicits.
Arguments parse_result : clear implicits.
Arguments word_class : clear implicits.

End Argparse.

(** ** The main block *)

(** The attributes of the namespace the parser fills. *)
Record namespace : Type := {
  ns_config_path : pyval;
  ns_log : bool;
  ns_num_gpus : pyval
}.

Section Main.

Import Argparse.

(** The builtin [int] applied to a string. *)
Variable int : string -> option Z.
Variable negative_number_like : string -> bool.

(** [ArgumentParser(description=...)]: [add_help] is left at its default,
    so the new parser already has the [-h]/[--help] action. *)
Definition ArgumentParser : parser namespace :=
  {| actions := [ {| option_strings := ["-h"; "--help"]; kind := Help |} ];
     defaults := {| ns_config_path := PNone; ns_log := false; ns_num_gpus := PNone |} |}.

Definition add_argument (p : parser namespace) (name : string)
    (k : action_kind namespace) (set_default : namespace -> namespace)
  : parser namespace :=
  {| actions := actions p ++ [ {| option_strings := [name]; kind := k |} ];
     defaults := set_default (defaults p) |}.

Definition set_config_path (v : pyval) (ns : namespace) : namespace :=
  {| ns_config_path := v; ns_log := ns_log ns; ns_num_gpus := ns_num_gpus ns |}.
Definition set_log (b : bool) (ns : namespace) : namespace :=
  {| ns_config_path := ns_config_path ns; ns_log := b; ns_num_gpus := ns_num_gpus ns |}.
Definition set_num_gpus (v : pyval) (ns : namespace) : namespace :=
  {| ns_config_path := ns_config_path ns; ns_log := ns_log ns; ns_num_gpus := v |}.

(** Lines 106-109. *)
Definition the_parser : parser namespace :=
  let parser := ArgumentParser in
  let parser := add_argument parser "--config_path"
                  (Store (fun s => Some (PStr s)) set_config_path)
                  (set_config_path PNone) in
  let parser := add_argument parser "--log"
                  (StoreTrue (set_log true)) (set_log false) in
  add_argument parser "--num_gpus"
    (Store (fun s => PInt <$> int s) set_num_gpus) (set_num_gpus (PInt 1)).

(** What the main block amounts to. *)
Inductive launch : Type :=
| Exited (status : Z)
| Uncaught (x : exn)
| InProcess (r : run unit)
| Spawned (workers : list (Z * run unit)).

(** [mp.spawn(fn, args=(a,), nprocs=n)]: [n] processes, the one of index
    [i] runs [fn(i, a)] for [i] from [0] to [n - 1]. *)
Definition mp_spawn (fn : Z -> args -> M unit) (a : args) (nprocs : Z) (s : store)
  : list (Z * run unit) :=
  map (fun i => (Z.of_nat i, fn (Z.of_nat i) a s)) (seq 0 (Z.to_nat nprocs)).

(** The libraries as the process of a given rank meets them. *)
Variable L : Z -> library.

(** Lines 110-116.  Comparing a value that is not a number with [1]
    raises [TypeError].  Line 105 sets a switch of the cuDNN back end that
    the script never reads. *)
Definition main (argv : list string) (s : store) : launch :=
  match parse_args negative_number_like the_parser argv with
  | Exit status => Exited status
  | Parsed ns =>
      match ns_num_gpus ns with
      | PInt n =>
          let a := {| config_path := ns_config_path ns; log := ns_log ns;
                      num_gpus := n; distributed := n >? 1 |} in
          if distributed a
          then Spawned (mp_spawn (fun rank => subprocess_fn (L rank) rank) a (num_gpus a) s)
          else InProcess (subprocess_fn (L 0) 0 a s)
      | _ => Uncaught TypeError
      end
  end.

End Main.

(** *** The two builtins on ASCII input *)

Definition digit_value (c : ascii) : option Z :=
  let n := Z.of_nat (nat_of_ascii c) in
  if (48 <=? n) && (n <=? 57) then Some (n - 48) else None.

Fixpoint decimal (acc : Z) (s : string) : option Z :=
  match s with
  | EmptyString => Some acc
  | String c s' =>
      match digit_value c with
      | Some d => decimal (10 * acc + d) s'
      | None => None
      end
  end.

(** [int] on a plain decimal literal with an optional sign. *)
Definition int_of_decimal (s : string) : option Z :=
  match s with
  | EmptyString => None
  | String c s' =>
      if bool_decide (c = "-"%char) then
        match s' with EmptyString => None | _ => Z.opp <$> decimal 0 s' end
      else if bool_decide (c = "+"%char) then
        match s' with EmptyString => None | _ => decimal 0 s' end
      else decimal 0 s
  end.

Fixpoint all_digits (s : string) : bool :=
  match s with
  | EmptyString => true
  | String c s' => bool_decide (is_Some (digit_value c)) && all_digits s'
  end.

Fixpoint digits_dot_digits (s : string) : bool :=
  match s with
  | EmptyString => false
  | String c s' =>
      if bool_decide (c = "."%char)
      then negb (bool_decide (s' = EmptyString)) && all_digits s'
      else bool_decide (is_Some (digit_value c)) && digits_dot_digits s'
  end.

(** ['^-\d+$|^-\d*\.\d+$'] on ASCII digits. *)
Definition ascii_negative_number (s : string) : bool :=
  match s with
  | String c s' =>
      bool_decide (c = "-"%char) &&
      ((negb (bool_decide (s' = EmptyString)) && all_digits s') || digits_dot_digits s')
  | EmptyString => false
  end.

(** ** Reading a run *)

(** The operations of a run, in order. *)
Definition ops {A} (r : run A) : list event := map event_of (events r).

(** What performing an operation gives in a library: the primitive
    operations of Python and of [nn.Module] answer for themselves, the
    library routines through their oracles. *)
Definition performs (L : library) (e : event) : result retval :=
  match e with
  | ESetup rank n => sum_map id RUnit (setup L rank n)
  | EPrint _ => inr RNone
  | EOpen path => sum_map id RObj (open L path)
  | EYamlLoad st => sum_map id RYaml (yaml_load L st)
  | EGetItem d k => sum_map id RYaml (getitem d k)
  | EContains k d => sum_map id RBool (contains k d)
  | ENSLoader ns => sum_map id RObj (NSLoader L ns)
  | EMakeDataset l n st tr => sum_map id RObj (make_dataset L l n st tr)
  | EDataSampler t sh d => sum_map id RObj (data_sampler L t sh d)
  | EDataLoader t b sa dl => sum_map id RObj (DataLoader L t b sa dl)
  | EFNN3d m1 m2 m3 fc la => sum_map id RModule (FNN3d L m1 m2 m3 fc la)
  | EModuleTo m d => sum_map id RUnit (module_to L m d)
  | ETorchLoad path => sum_map id RObj (torch_load L path)
  | EObjGetItem o k => sum_map id RObj (obj_getitem L o k)
  | ELoadStateDict m sd => sum_map id RUnit (load_state_dict L m sd)
  | EDDP m ids bb => sum_map id RUnit (DDP L m ids bb)
  | ERequiresGrad _ _ => inr RNone
  | EGetAttr m name => sum_map id RModule (getattr m name)
  | EGetLast m => sum_map id RModule (getlast m)
  | EAdam ps betas lr => sum_map id RObj (Adam L ps betas lr)
  | EMultiStepLR o ms g => sum_map id RObj (MultiStepLR L o ms g)
  | ELoaderS l => sum_map id RObj (loader_S L l)
  | EGetForcing t => sum_map id RObj (get_forcing L t)
  | ETensorTo t d => sum_map id RObj (tensor_to L t d)
  | ETrain ta => sum_map id RUnit (train L ta)
  | ECleanup => sum_map id RUnit (cleanup L)
  end.

(** A log entry records what the operation really gave. *)
Definition faithful (L : library) (en : entry) : Prop :=
  match en with
  | Returned e v => performs L e = inr v
  | Raised e x => performs L e = inl x
  end.

(** A log and an outcome that fit a script without handlers and without
    [raise]: every operation before the last returned; if the last one
    raised, its exception is the outcome; otherwise the run returned. *)
Fixpoint propagates (tr : list entry) (oc : result unit) : Prop :=
  match tr with
  | [] => oc = inr tt
  | Returned _ _ :: tr' => propagates tr' oc
  | Raised _ x :: tr' => tr' = [] /\ oc = inl x
  end.

(** The steps of the script. *)
Inductive step : Type :=
| LoadConfig
| ConstructData
| ConstructModel
| LoadCheckpoint
| Freeze
| ConstructAdam
| ConstructScheduler
| ComputeForcing
| CallTrain.

Global Instance step_eq_dec : EqDecision step.
Proof. solve_decision. Defined.

(** The step an operation belongs to.  Reading the configuration
    mapping, printing and the calls of the distributed set-up belong to
    none. *)
Definition step_of (e : event) : option step :=
  match e with
  | EOpen _ | EYamlLoad _ => Some LoadConfig
  | ENSLoader _ | EMakeDataset _ _ _ _ | EDataSampler _ _ _ | EDataLoader _ _ _ _ =>
      Some ConstructData
  | EFNN3d _ _ _ _ _ | EModuleTo _ _ => Some ConstructModel
  | ETorchLoad _ | EObjGetItem _ _ | ELoadStateDict _ _ => Some LoadCheckpoint
  | ERequiresGrad _ _ | EGetAttr _ _ | EGetLast _ => Some Freeze
  | EAdam _ _ _ => Some ConstructAdam
  | EMultiStepLR _ _ _ => Some ConstructScheduler
  | ELoaderS _ | EGetForcing _ | ETensorTo _ _ => Some ComputeForcing
  | ETrain _ => Some CallTrain
  | ESetup _ _ | EPrint _ | EGetItem _ _ | EContains _ _ | EDDP _ _ _ | ECleanup => None
  end.

(** Drops the repetitions of a step that follow it directly. *)
Fixpoint compress (l : list step) : list step :=
  match l with
  | [] => []
  | x :: l' =>
      match l' with
      | y :: _ => if bool_decide (x = y) then compress l' else x :: compress l'
      | [] => [x]
      end
  end.

(** The steps a run went through, in order. *)
Definition steps {A} (r : run A) : list step := compress (omap step_of (ops r)).

(** The order of the steps in the source; the checkpoint is optional. *)
Definition script_order (with_ckpt : bool) : list step :=
  [LoadConfig; ConstructData; ConstructModel]
  ++ (if with_ckpt then [LoadCheckpoint] else [])
  ++ [Freeze; ConstructAdam; ConstructScheduler; ComputeForcing; CallTrain].

(** Projections of the operations of a run. *)
Definition train_calls {A} (r : run A) : list train_args :=
  omap (fun e => match e with ETrain ta => Some ta | _ => None end) (ops r).

Definition adam_calls {A} (r : run A) : list (list param) :=
  omap (fun e => match e with EAdam ps _ _ => Some ps | _ => None end) (ops r).

Definition NSLoader_calls {A} (r : run A) : list NSLoader_args :=
  omap (fun e => match e with ENSLoader ns => Some ns | _ => None end) (ops r).

Definition torch_loads {A} (r : run A) : list yaml :=
  omap (fun e => match e with ETorchLoad p => Some p | _ => None end) (ops r).

Definition state_dict_loads {A} (r : run A) : list (module * obj) :=
  omap (fun e => match e with ELoadStateDict m sd => Some (m, sd) | _ => None end) (ops r).

Definition attr_accesses {A} (r : run A) : list (module * string) :=
  omap (fun e => match e with EGetAttr m n => Some (m, n) | _ => None end) (ops r).

Definition requires_grad_calls {A} (r : run A) : list (module * bool) :=
  omap (fun e => match e with ERequiresGrad m b => Some (m, b) | _ => None end) (ops r).

Definition lookups {A} (r : run A) : list (yaml * string) :=
  omap (fun e => match e with EGetItem d k => Some (d, k) | _ => None end) (ops r).

Definition wrappings {A} (r : run A) : list module :=
  omap (fun e => match e with EDDP m _ _ => Some m | _ => None end) (ops r).

Definition setup_calls {A} (r : run A) : list (Z * Z) :=
  omap (fun e => match e with ESetup rank n => Some (rank, n) | _ => None end) (ops r).

Definition cleanup_calls {A} (r : run A) : list unit :=
  omap (fun e => match e with ECleanup => Some tt | _ => None end) (ops r).

(** The networks the [FNN3d] constructor returned. *)
Definition instances {A} (r : run A) : list module :=
  omap (fun en => match en with
                  | Returned (EFNN3d _ _ _ _ _) (RModule m) => Some m
                  | _ => None
                  end) (events r).

(** The configuration file named on the command line loads as [config]. *)
Definition loads (L : library) (a : args) (config : yaml) : Prop :=
  exists stream, open L (config_path a) = inr stream /\ yaml_load L stream = inr config.

(** The networks that were moved to the device. *)
Definition moved {A} (r : run A) : list module :=
  omap (fun en => match en with
                  | Returned (EModuleTo m _) _ => Some m
                  | _ => None
                  end) (events r).

(** The state dicts [load_state_dict] accepted. *)
Definition loaded {A} (r : run A) : list obj :=
  omap (fun en => match en with
                  | Returned (ELoadStateDict _ sd) _ => Some sd
                  | _ => None
                  end) (events r).

Definition is_checkpoint_op (e : event) : bool :=
  match e with
  | ETorchLoad _ | EObjGetItem _ _ | ELoadStateDict _ _ => true
  | _ => false
  end.

Definition is_wrap_or_freeze (e : event) : bool :=
  match e with
  | EDDP _ _ _ | ERequiresGrad _ _ | EGetAttr _ _ | EGetLast _ => true
  | _ => false
  end.

(** No checkpoint operation comes after the wrapping in
    [DistributedDataParallel] or after an operation of the freezing
    step. *)
Fixpoint checkpoint_first (l : list event) : bool :=
  match l with
  | [] => true
  | e :: l' =>
      if is_wrap_or_freeze e
      then forallb (fun e' => negb (is_checkpoint_op e')) l'
      else checkpoint_first l'
  end.

(** The arguments of a library call that come out of the configuration. *)
Definition config_values (e : event) : list yaml :=
  match e with
  | ENSLoader ns =>
      datapath1 ns :: from_option (fun v => [v]) [] (datapath2 ns)
      ++ [nx ns; nt ns; sub ns; sub_t ns; N ns; t_interval ns]
  | EMakeDataset _ n_sample start train => [n_sample; start; train]
  | EDataSampler _ shuffle _ => [shuffle]
  | EDataLoader _ batch_size _ _ => [batch_size]
  | EFNN3d m1 m2 m3 fc_dim layers => [m1; m2; m3; fc_dim; layers]
  | ETorchLoad path => [path]
  | EAdam _ _ lr => [lr]
  | EMultiStepLR _ milestones gamma => [milestones; gamma]
  | ETrain ta => [t_project ta; t_group ta]
  | _ => []
  end.

(** The sections of the configuration file and the keys the script reads
    in each. *)
Definition sections : list string := ["data"; "train"; "model"; "others"].

Definition config_keys : list (string * string) :=
  [("data", "datapath"); ("data", "datapath2"); ("data", "nx"); ("data", "nt");
   ("data", "sub"); ("data", "sub_t"); ("data", "total_num");
   ("data", "time_interval"); ("data", "n_sample"); ("data", "offset");
   ("data", "shuffle"); ("train", "batchsize"); ("model", "modes1");
   ("model", "modes2"); ("model", "modes3"); ("model", "fc_dim");
   ("model", "layers"); ("train", "ckpt"); ("train", "base_lr");
   ("train", "milestones"); ("train", "scheduler_gamma");
   ("others", "project"); ("others", "group")].

(** The command-line word [w] selects the option [o] of the parser. *)
Definition selects {NS} (nnl : string -> bool) (p : Argparse.parser NS)
    (o w : string) : bool :=
  match Argparse.parse_optional nnl p w with
  | Argparse.Optional (Some _) o' _ => bool_decide (o' = o)
  | _ => false
  end.


(** ** A concrete setting *)

(** A network with the layout of [FNN3d] for two Fourier layers: a lifting
    layer, two spectral convolutions and two pointwise convolutions in
    module lists, and the two projection layers. *)
Definition example_net : module :=
  Module Layer []
    [("fc0", Module Layer [0; 1]%nat []);
     ("sp_convs", Module ModuleList []
        [("0", Module Layer [2; 3; 4; 5]%nat []);
         ("1", Module Layer [6; 7; 8; 9]%nat [])]);
     ("ws", Module ModuleList []
        [("0", Module Layer [10; 11]%nat []);
         ("1", Module Layer [12; 13]%nat [])]);
     ("fc1", Module Layer [14; 15]%nat []);
     ("fc2", Module Layer [16; 17]%nat [])].

Definition example_data (second_path : bool) : yaml :=
  YMap ([(YStr "datapath", YStr "data/NS_fine_Re500_s2048_T100.npy")]
        ++ (if second_path
            then [(YStr "datapath2", YStr "data/NS_fine_Re500_T128_part2.npy")]
            else [])
        ++ [(YStr "total_num", YInt 100); (YStr "offset", YInt 0);
            (YStr "n_sample", YInt 1); (YStr "nx", YInt 64); (YStr "nt", YInt 64);
            (YStr "sub", YInt 1); (YStr "sub_t", YInt 1);
            (YStr "time_interval", YFloat "0.5"); (YStr "shuffle", YBool false)]).

Definition example_train (with_ckpt : bool) : yaml :=
  YMap ([(YStr "batchsize", YInt 1); (YStr "epochs", YInt 2500);
         (YStr "milestones", YSeq [YInt 500; YInt 1500; YInt 2000]);
         (YStr "base_lr", YFloat "0.0025"); (YStr "scheduler_gamma", YFloat "0.5")]
        ++ (if with_ckpt
            then [(YStr "ckpt", YStr "checkpoints/Re500-FDM/pretrain.pt")]
            else [])).

Definition example_config (second_path with_ckpt : bool) : yaml :=
  YMap [(YStr "data", example_data second_path);
        (YStr "model",
           YMap [(YStr "layers", YSeq [YInt 64; YInt 64; YInt 64]);
                 (YStr "modes1", YSeq [YInt 8; YInt 8]);
                 (YStr "modes2", YSeq [YInt 8; YInt 8]);
                 (YStr "modes3", YSeq [YInt 8; YInt 8]);
                 (YStr "fc_dim", YInt 128)]);
        (YStr "train", example_train with_ckpt);
        (YStr "others",
           YMap [(YStr "project", YStr "PINO-finetune");
                 (YStr "group", YStr "Re500")])].

(** Libraries in which every call succeeds: the configuration file loads
    as [config] and the model constructor returns [net]. *)
Definition example_library (config : yaml) (net : module) : library :=
  {| setup := fun _ _ => inr tt;
     cleanup := inr tt;
     open := fun path => match path with PStr _ => inr 1%nat | _ => inl TypeError end;
     yaml_load := fun _ => inr config;
     NSLoader := fun _ => inr 2%nat;
     make_dataset := fun _ _ _ _ => inr 3%nat;
     data_sampler := fun _ _ _ => inr 4%nat;
     DataLoader := fun _ _ _ _ => inr 5%nat;
     FNN3d := fun _ _ _ _ _ => inr net;
     module_to := fun _ _ => inr tt;
     torch_load := fun _ => inr 6%nat;
     obj_getitem := fun _ _ => inr 7%nat;
     load_state_dict := fun _ _ => inr tt;
     DDP := fun _ _ _ => inr tt;
     Adam := fun _ _ _ => inr 8%nat;
     MultiStepLR := fun _ _ _ => inr 9%nat;
     loader_S := fun _ => inr 10%nat;
     get_forcing := fun _ => inr 11%nat;
     tensor_to := fun _ _ => inr 12%nat;
     train := fun _ => inr tt |}.

(** A freshly started interpreter: every parameter a constructor creates
    requires a gradient, no state dict was loaded. *)
Definition fresh_store : store :=
  {| flags := fun _ => true; weights := None |}.

Definition example_args (n : Z) : args :=
  {| config_path := PStr "configs/finetune/Re500-finetune.yaml"; log := false;
     num_gpus := n; distributed := n >? 1 |}.


(** ** Properties of single log entries *)

(** The arguments of an [NSLoader] call come from the section [data] of
    the configuration, the second data path exactly when the section has
    the key. *)
Definition from_data_section (data : yaml) (ns : NSLoader_args) : Prop :=
  (is_Some (datapath2 ns) <-> contains "datapath2" data = inr true)
  /\ (forall v, datapath2 ns = Some v -> getitem data "datapath2" = inr v)
  /\ getitem data "datapath" = inr (datapath1 ns)
  /\ getitem data "nx" = inr (nx ns)
  /\ getitem data "nt" = inr (nt ns)
  /\ getitem data "sub" = inr (sub ns)
  /\ getitem data "sub_t" = inr (sub_t ns)
  /\ getitem data "total_num" = inr (N ns)
  /\ getitem data "time_interval" = inr (t_interval ns).

Definition NSLoader_entry (data : yaml) (en : entry) : Prop :=
  match event_of en with
  | ENSLoader ns => from_data_section data ns
  | _ => True
  end.

(** An operation of a run in one process. *)
Definition local_entry (en : entry) : Prop :=
  match event_of en with
  | ESetup _ _ | ECleanup | EDDP _ _ _ => False
  | _ => True
  end.

(** The value is read from the configuration in two nested key accesses:
    one of a section, one of a key the script reads in that section. *)
Definition two_level (config v : yaml) : Prop :=
  exists section key d,
    (section, key) ∈ config_keys
    /\ getitem config section = inr d /\ getitem d key = inr v.

(** The value is read from the loaded mapping in one key access. *)
Definition one_level (config v : yaml) : Prop :=
  exists key, getitem config key = inr v.

Definition config_entry (config : yaml) (en : entry) : Prop :=
  match event_of en with
  | EGetItem d key =>
      (d = config /\ key ∈ sections)
      \/ (exists section,
            (section, key) ∈ config_keys /\ getitem config section = inr d)
  | e => Forall (two_level config) (config_values e)
  end.

(** The optimizer a scheduler is built on is one [Adam] returned. *)
Definition scheduler_entry (L : library) (en : entry) : Prop :=
  match event_of en with
  | EMultiStepLR o _ _ => exists ps betas lr, Adam L ps betas lr = inr o
  | _ => True
  end.

(** What the script passes on from its own arguments and as literals: the
    rank as device and as process index, the command-line switches, and
    the constants written in the source. *)
Definition fixed_arguments (rank : Z) (a : args) (en : entry) : Prop :=
  match event_of en with
  | ESetup r n => r = rank /\ n = num_gpus a
  | EPrint (MsgRunning r) | EPrint (MsgDone r) => r = rank
  | EOpen path => path = config_path a
  | EDataSampler _ _ d => d = distributed a
  | EDataLoader _ _ _ drop_last => drop_last = true
  | EModuleTo _ d | ETensorTo _ d => d = rank
  | EObjGetItem _ key => key = "model"
  | EDDP _ ids bb => ids = [rank] /\ bb = false
  | EAdam _ betas _ => betas = (YFloat "0.9", YFloat "0.999")
  | ETrain ta => t_rank ta = rank /\ t_log ta = log a /\ t_profile ta = true
  | _ => True
  end.

(** Which key of the configuration each argument of a call is read from. *)
Definition keyed_entry (config : yaml) (en : entry) : Prop :=
  match event_of en with
  | EMakeDataset _ n_sample start train =>
      exists d, getitem config "data" = inr d
        /\ getitem d "n_sample" = inr n_sample
        /\ getitem d "offset" = inr start
        /\ getitem d "shuffle" = inr train
  | EDataSampler _ shuffle _ =>
      exists d, getitem config "data" = inr d /\ getitem d "shuffle" = inr shuffle
  | EDataLoader _ batch_size _ _ =>
      exists t, getitem config "train" = inr t /\ getitem t "batchsize" = inr batch_size
  | EFNN3d m1 m2 m3 fc_dim layers =>
      exists m, getitem config "model" = inr m
        /\ getitem m "modes1" = inr m1 /\ getitem m "modes2" = inr m2
        /\ getitem m "modes3" = inr m3 /\ getitem m "fc_dim" = inr fc_dim
        /\ getitem m "layers" = inr layers
  | ETorchLoad path | EPrint (MsgWeightsLoaded path) =>
      exists t, getitem config "train" = inr t /\ getitem t "ckpt" = inr path
  | EAdam _ _ lr =>
      exists t, getitem config "train" = inr t /\ getitem t "base_lr" = inr lr
  | EMultiStepLR _ milestones gamma =>
      exists t, getitem config "train" = inr t
        /\ getitem t "milestones" = inr milestones
        /\ getitem t "scheduler_gamma" = inr gamma
  | ETrain ta =>
      t_config ta = config
      /\ exists o, getitem config "others" = inr o
           /\ getitem o "project" = inr (t_project ta)
           /\ getitem o "group" = inr (t_group ta)
  | _ => True
  end.

(** Where the objects handed to the library come from: each is what an
    earlier call of the same run returned. *)
Definition dataflow_entry (L : library) (rank : Z) (en : entry) : Prop :=
  match event_of en with
  | EYamlLoad stream => exists path, open L path = inr stream
  | EMakeDataset loader _ _ _ => exists ns, NSLoader L ns = inr loader
  | EDataSampler trainset _ _ =>
      exists loader n st tr, make_dataset L loader n st tr = inr trainset
  | EDataLoader trainset _ sampler _ =>
      exists loader n st tr sh d,
        make_dataset L loader n st tr = inr trainset
        /\ data_sampler L trainset sh d = inr sampler
  | EModuleTo m _ => exists m1 m2 m3 fc la, FNN3d L m1 m2 m3 fc la = inr m
  | EObjGetItem ckpt _ => exists path, torch_load L path = inr ckpt
  | ELoadStateDict m sd =>
      (exists m1 m2 m3 fc la, FNN3d L m1 m2 m3 fc la = inr m)
      /\ exists ckpt, obj_getitem L ckpt "model" = inr sd
  | EDDP m _ _ => exists m1 m2 m3 fc la, FNN3d L m1 m2 m3 fc la = inr m
  | EMultiStepLR o _ _ => exists ps betas lr, Adam L ps betas lr = inr o
  | ELoaderS loader => exists ns, NSLoader L ns = inr loader
  | EGetForcing t => exists loader, loader_S L loader = inr t
  | ETensorTo f _ => exists t, get_forcing L t = inr f
  | ETrain ta =>
      (exists m1 m2 m3 fc la, FNN3d L m1 m2 m3 fc la = inr (t_model ta))
      /\ (exists ns, NSLoader L ns = inr (t_loader ta))
      /\ (exists trainset b sa, DataLoader L trainset b sa true = inr (t_train_loader ta))
      /\ (exists ps betas lr, Adam L ps betas lr = inr (t_optimizer ta))
      /\ (exists ms g, MultiStepLR L (t_optimizer ta) ms g = inr (t_scheduler ta))
      /\ (exists t f, loader_S L (t_loader ta) = inr t /\ get_forcing L t = inr f
                      /\ tensor_to L f rank = inr (t_forcing ta))
  | _ => True
  end.

(** What a run printed, in order. *)
Definition prints {A} (r : run A) : list message :=
  omap (fun e => match e with EPrint msg => Some msg | _ => None end) (ops r).

(** The operations on the process group and the console, with the loading
    of the weights that one message reports. *)
Definition on_console (e : event) : bool :=
  match e with
  | ESetup _ _ | EPrint _ | ETorchLoad _ | ELoadStateDict _ _ | ECleanup => true
  | _ => false
  end.

(** ** Digests *)

(** The operations that are steps of the script. *)
Definition is_step (e : event) : bool :=
  match step_of e with Some _ => true | None => false end.

(** The constructions of the loader. *)
Definition is_NSLoader (e : event) : bool :=
  match e with ENSLoader _ => true | _ => false end.

(** The operations on the network: its construction, the checkpoint, the
    wrapping and the freezing. *)
Definition on_model (e : event) : bool :=
  match e with
  | EFNN3d _ _ _ _ _ | EModuleTo _ _ | ETorchLoad _ | EObjGetItem _ _
  | ELoadStateDict _ _ | EDDP _ _ _ | ERequiresGrad _ _ | EGetAttr _ _
  | EGetLast _ | EAdam _ _ _ | ETrain _ => true
  | _ => false
  end.
(** ** Symbolic execution of the script *)

(** A run continued after the operations [acc] (latest first). *)
Definition after {A} (acc : list entry) (r : run A) : run A :=
  {| events := rev_append acc (events r); final := final r; outcome := outcome r |}.


(** The entries of a log that concern the operations [rel] selects. *)
Definition keep (rel : event -> bool) (en : entry) : option entry :=
  if rel (event_of en) then Some en else None.

(** A run with its log cut down to those entries. *)
Definition digest {A} (rel : event -> bool) (r : run A) : run A :=
  {| events := omap (keep rel) (events r); final := final r; outcome := outcome r |}.

Definition cons_if (b : bool) (en : entry) (acc : list entry) : list entry :=
  if b then en :: acc else acc.

(** A digest continued after the kept entries [acc] (latest first). *)
Definition after_kept {A} (rel : event -> bool) (acc : list entry) (r : run A) : run A :=
  {| events := rev_append acc (omap (keep rel) (events r));
     final := final r; outcome := outcome r |}.

(** [every Q m]: whatever the store, each entry [m] logs satisfies [Q]. *)
Definition every {A} (Q : entry -> Prop) (m : M A) : Prop :=
  forall s, Forall Q (events (m s)).

(** The log and the outcome of a piece of the script fit together as in
    [propagates], whatever it returns. *)
Fixpoint ends_with {A} (tr : list entry) (oc : result A) : Prop :=
  match tr with
  | [] => exists a, oc = inr a
  | Returned _ _ :: tr' => ends_with tr' oc
  | Raised _ x :: tr' => tr' = [] /\ oc = inl x
  end.

Definition clean {A} (m : M A) : Prop :=
  forall s, ends_with (events (m s)) (outcome (m s)).

(** * Verification *)

Lemma rev_append_app {A} (l k m : list A) :
  rev_append l (k ++ m) = rev_append l k ++ m.
Proof.
  revert k; induction l as [|x l IH]; intros k; simpl; [done|].
  apply (IH (x :: k)).
Qed.

Lemma after_nil {A} (m : M A) s : m s = after [] (bind m ret s).
Proof.
  unfold after, bind, ret. destruct (m s) as [ev fi [x|a]]; simpl; [done|].
  by rewrite app_nil_r.
Qed.

Lemma after_assoc {A B C} acc (m : M A) (f : A -> M B) (g : B -> M C) s :
  after acc (bind (bind m f) g s) = after acc (bind m (fun x => bind (f x) g) s).
Proof.
  unfold after, bind. destruct (m s) as [ev fi [x|a]]; simpl; [done|].
  destruct (f a fi) as [ev' fi' [x'|b]]; simpl; [done|].
  by rewrite app_assoc.
Qed.

(** *** Facts about logs *)

Lemma propagates_raised tr oc e x :
  propagates tr oc -> Raised e x ∈ tr -> oc = inl x /\ last tr = Some (Raised e x).
Proof.
  induction tr as [|en tr IH]; intros Hp Hin; [by apply elem_of_nil in Hin|].
  destruct en as [e' v|e' x']; simpl in Hp.
  - apply elem_of_cons in Hin as [Heq|Hin]; [discriminate|].
    destruct (IH Hp Hin) as [-> Hl]. split; [done|].
    destruct tr; [by apply elem_of_nil in Hin|done].
  - destruct Hp as [-> ->]. apply elem_of_cons in Hin as [Heq|Hin].
    + by injection Heq as -> ->.
    + by apply elem_of_nil in Hin.
Qed.

Lemma propagates_outcome tr oc x :
  propagates tr oc -> oc = inl x -> exists e, last tr = Some (Raised e x).
Proof.
  induction tr as [|en tr IH]; simpl; intros Hp ->; [discriminate|].
  destruct en as [e' v|e' x'].
  - destruct (IH Hp eq_refl) as [e He]. exists e.
    destruct tr; [discriminate|done].
  - destruct Hp as [-> Heq]. injection Heq as ->. by exists e'.
Qed.

Lemma elem_of_ops_entry {A} (r : run A) e :
  e ∈ ops r -> exists en, en ∈ events r /\ event_of en = e.
Proof.
  unfold ops. intros Hin. apply list_elem_of_In, in_map_iff in Hin as (en & He & Hin).
  exists en. split; [by apply list_elem_of_In|done].
Qed.



(** *** Properties of every log entry *)

Section Every.

Context (Q : entry -> Prop).

Lemma every_start {A} (m : M A) : every Q (bind m ret) -> every Q m.
Proof. intros H s. rewrite after_nil. apply (H s). Qed.

Lemma every_assoc {A B C} (m : M A) (f : A -> M B) (g : B -> M C) :
  every Q (bind m (fun x => bind (f x) g)) -> every Q (bind (bind m f) g).
Proof.
  intros H s. specialize (H s).
  pose proof (after_assoc [] m f g s) as Heq. unfold after in Heq; simpl in Heq.
  by injection Heq as ->.
Qed.

Lemma every_ret_bind {A B} (a : A) (k : A -> M B) :
  every Q (k a) -> every Q (bind (ret a) k).
Proof. intros H s. specialize (H s). unfold bind, ret; simpl. done. Qed.

Lemma every_modify_bind {B} f (k : unit -> M B) :
  every Q (k tt) -> every Q (bind (modify f) k).
Proof. intros H s. specialize (H (f s)). unfold bind, modify; simpl. done. Qed.

Lemma every_get_flags_bind {B} (k : (param -> bool) -> M B) :
  (forall rg, every Q (k rg)) -> every Q (bind get_flags k).
Proof. intros H s. specialize (H (flags s) s). unfold bind, get_flags; simpl. done. Qed.

Lemma every_call_bind {A B} e inj (o : result A) (k : A -> M B) :
  (forall x, o = inl x -> Q (Raised e x)) ->
  (forall a, o = inr a -> Q (Returned e (inj a)) /\ every Q (k a)) ->
  every Q (bind (call e inj o) k).
Proof.
  intros Hl Hr s. unfold bind, call. destruct o as [x|a]; simpl.
  - constructor; [by apply Hl|constructor].
  - destruct (Hr a eq_refl) as [Hq Hk]. constructor; [done|apply Hk].
Qed.

Lemma every_call_inr {A B} e inj (o : result A) a (k : A -> M B) :
  o = inr a -> Q (Returned e (inj a)) -> every Q (k a) ->
  every Q (bind (call e inj o) k).
Proof.
  intros -> Hq Hk. apply every_call_bind; [discriminate|].
  intros a' Ha. by injection Ha as <-.
Qed.

Lemma every_call_inl {A B} e inj (o : result A) x (k : A -> M B) :
  o = inl x -> Q (Raised e x) -> every Q (bind (call e inj o) k).
Proof.
  intros -> Hq. apply every_call_bind; [|discriminate].
  intros x' Hx. by injection Hx as <-.
Qed.

Lemma every_ret {A} (a : A) : every Q (ret a).
Proof. intros s. constructor. Qed.

End Every.

(** One step of [every Q (bind m k)]; [tac] proves [Q] of the entry a
    call logs, from what the context knows of the calls before it. *)
Ltac every_step tac :=
  lazymatch goal with
  | |- every _ (bind (bind _ _) _) => apply every_assoc
  | |- every _ (bind (ret _) _) => apply every_ret_bind; cbv beta
  | |- every _ (bind (modify _) _) => apply every_modify_bind; cbv beta
  | |- every _ (bind get_flags _) => apply every_get_flags_bind; intros ?; cbv beta
  | |- every _ (bind (call _ _ (getattr (DDP_wrapper ?m) ?n)) _) =>
      apply (every_call_inl _ _ _ _ (AttributeError n) _ eq_refl); solve [tac]
  | |- every _ (bind (call _ _ ?o) _) =>
      first
        [ match goal with
          | E : o = inr ?a |- _ =>
              apply (every_call_inr _ _ _ _ a _ E); [solve [tac] | cbv beta]
          | E : o = inl ?x |- _ =>
              apply (every_call_inl _ _ _ _ x _ E); solve [tac]
          end
        | apply every_call_bind;
          [ intros ? ?; first [discriminate | solve [tac]]
          | intros ? ?; split; [solve [tac] | cbv beta] ] ]
  | |- every _ (bind (if ?b then _ else _) _) =>
      lazymatch b with
      | true => cbv iota
      | false => cbv iota
      | _ =>
          first
            [ match goal with
              | E : b = true |- _ => rewrite E
              | E : b = false |- _ => rewrite E
              end
            | let E := fresh "E" in destruct b eqn:E ]
      end
  | |- every _ (bind (let '(_, _) := _ in _) _) => cbv beta iota zeta
  | |- every _ (ret _) => apply every_ret
  | |- every ?Q (bind ?m ?k) =>
      let m' := eval red in m in
      progress change (every Q (bind m' k))
  end.

Ltac run_every tac := apply every_start; repeat every_step tac.

Lemma every_ops {A} (Q : entry -> Prop) (R : event -> Prop) (m : M A) s :
  every Q m -> (forall en, Q en -> R (event_of en)) -> Forall R (ops (m s)).
Proof.
  intros H HQR. unfold ops. apply Forall_fmap. eapply Forall_impl; [apply (H s)|].
  intros en Hen. by apply HQR.
Qed.

Lemma omap_nil_Forall {A B} (f : A -> option B) (l : list A) :
  Forall (fun x => f x = None) l -> omap f l = [].
Proof. induction 1 as [|x l Hx _ IH]; simpl; [done|]. by rewrite Hx. Qed.

Lemma elem_of_omap_Forall {A B} (f : A -> option B) (R : A -> Prop) (l : list A) y :
  Forall R l -> y ∈ omap f l -> exists x, R x /\ f x = Some y.
Proof.
  intros HR Hin. apply list_elem_of_omap in Hin as (x & Hx & Hf).
  exists x. split; [|done]. rewrite Forall_forall in HR. by apply HR.
Qed.

(** *** Scripts without handlers *)

Lemma ends_with_app {A B} tr tr' (a : A) (oc : result B) :
  ends_with tr (inr a : result A) -> ends_with tr' oc -> ends_with (tr ++ tr') oc.
Proof.
  induction tr as [|[e v|e x] tr IH]; simpl; intros H H'; [done|by apply IH|].
  by destruct H.
Qed.

Lemma ends_with_raise {A B} tr x :
  ends_with tr (inl x : result A) -> ends_with tr (inl x : result B).
Proof.
  induction tr as [|[e v|e x'] tr IH]; simpl.
  - by intros [a ?].
  - apply IH.
  - intros [-> Heq]. by injection Heq as ->.
Qed.

Lemma clean_ret {A} (a : A) : clean (ret a).
Proof. intros s; simpl. by exists a. Qed.

Lemma clean_modify f : clean (modify f).
Proof. intros s; simpl. by exists tt. Qed.

Lemma clean_get_flags : clean get_flags.
Proof. intros s; simpl. by eexists. Qed.

Lemma clean_call {A} e inj (o : result A) : clean (call e inj o).
Proof. intros s. unfold call. destruct o; simpl; [done|by eexists]. Qed.

Lemma clean_bind {A B} (m : M A) (k : A -> M B) :
  clean m -> (forall a, clean (k a)) -> clean (bind m k).
Proof.
  intros Hm Hk s. specialize (Hm s). unfold bind.
  destruct (outcome (m s)) as [x|a] eqn:E; simpl.
  - eapply ends_with_raise, Hm.
  - eapply ends_with_app; [exact Hm|apply Hk].
Qed.

Lemma clean_if {A} (b : bool) (m1 m2 : M A) :
  clean m1 -> clean m2 -> clean (if b then m1 else m2).
Proof. by destruct b. Qed.

Lemma clean_propagates (m : M unit) s :
  clean m -> propagates (events (m s)) (outcome (m s)).
Proof.
  intros H. specialize (H s). revert H.
  generalize (outcome (m s)). induction (events (m s)) as [|[e v|e x] tr IH]; simpl.
  - intros oc [[] ->]. done.
  - apply IH.
  - done.
Qed.

Ltac solve_clean :=
  repeat first
    [ apply clean_ret | apply clean_modify | apply clean_get_flags | apply clean_call
    | apply clean_bind; [|intros ?]
    | apply clean_if
    | lazymatch goal with
      | |- clean (let '(_, _) := ?d in _) => destruct d
      | |- clean ?m => let m' := eval red in m in progress change (clean m')
      end ].

Lemma every_calls {A B} (Q : entry -> Prop) (f : event -> option B) (m : M A) s y :
  every Q m -> y ∈ omap f (ops (m s)) ->
  exists en, en ∈ events (m s) /\ Q en /\ f (event_of en) = Some y.
Proof.
  intros H Hin. apply list_elem_of_omap in Hin as (e & He & Hf).
  apply elem_of_ops_entry in He as (en & Hen & <-).
  exists en. split; [done|]. split; [|done].
  specialize (H s). rewrite Forall_forall in H. by apply H.
Qed.

Ltac solve_elem :=
  repeat first [ by apply list_elem_of_here | apply list_elem_of_further ].

(** *** Symbolic execution on a digest *)

Lemma omap_keep {B} (g : entry -> option B) rel (l : list entry) :
  (forall en, rel (event_of en) = false -> g en = None) ->
  omap g (omap (keep rel) l) = omap g l.
Proof.
  intros Hg. induction l as [|en l IH]; [done|].
  simpl. destruct (keep rel en) as [en'|] eqn:Ek; unfold keep in Ek;
    destruct (rel (event_of en)) eqn:E; try discriminate.
  - injection Ek as <-. simpl. destruct (g en); [f_equal|]; apply IH.
  - rewrite (Hg en E). apply IH.
Qed.

Lemma omap_ops_digest {A B} (g : event -> option B) rel (r : run A) :
  (forall e, rel e = false -> g e = None) ->
  omap g (ops (digest rel r)) = omap g (ops r).
Proof.
  intros Hg. unfold ops, digest; simpl.
  induction (events r) as [|en l IH]; [done|].
  simpl. destruct (keep rel en) as [en'|] eqn:Ek; unfold keep in Ek;
    destruct (rel (event_of en)) eqn:E; try discriminate.
  - injection Ek as <-. simpl. destruct (g (event_of en)); [f_equal|]; apply IH.
  - rewrite (Hg _ E). apply IH.
Qed.

Section SteppingDigest.

Context {B : Type} (P : run B -> Prop) (rel : event -> bool) (acc : list entry).


Lemma wpd_assoc {A A'} (m : M A) (f : A -> M A') (g : A' -> M B) s :
  P (after_kept rel acc (bind m (fun x => bind (f x) g) s)) ->
  P (after_kept rel acc (bind (bind m f) g s)).
Proof.
  pose proof (after_assoc [] m f g s) as Heq. unfold after in Heq; simpl in Heq.
  injection Heq as He Hf Ho. unfold after_kept. by rewrite He, Hf, Ho.
Qed.

Lemma wpd_ret {A} (a : A) (k : A -> M B) s :
  P (after_kept rel acc (k a s)) -> P (after_kept rel acc (bind (ret a) k s)).
Proof. done. Qed.

Lemma wpd_modify f (k : unit -> M B) s :
  P (after_kept rel acc (k tt (f s))) -> P (after_kept rel acc (bind (modify f) k s)).
Proof. done. Qed.

Lemma wpd_get_flags (k : (param -> bool) -> M B) s :
  P (after_kept rel acc (k (flags s) s)) -> P (after_kept rel acc (bind get_flags k s)).
Proof. done. Qed.

Lemma wpd_call {A} (b : bool) e inj (o : result A) (k : A -> M B) s :
  rel e = b ->
  (forall x, o = inl x ->
     P {| events := rev_append (cons_if b (Raised e x) acc) [];
          final := s; outcome := inl x |}) ->
  (forall a, o = inr a -> P (after_kept rel (cons_if b (Returned e (inj a)) acc) (k a s))) ->
  P (after_kept rel acc (bind (call e inj o) k s)).
Proof.
  intros Hb Hl Hr. destruct o as [x|a].
  - specialize (Hl x eq_refl). unfold after_kept, bind, call; simpl.
    unfold keep; simpl. rewrite Hb. by destruct b.
  - specialize (Hr a eq_refl). unfold after_kept, bind, call in *; simpl.
    unfold keep at 1; simpl. rewrite Hb. by destruct b.
Qed.

Lemma wpd_call_inr {A} (b : bool) e inj (o : result A) a (k : A -> M B) s :
  rel e = b -> o = inr a ->
  P (after_kept rel (cons_if b (Returned e (inj a)) acc) (k a s)) ->
  P (after_kept rel acc (bind (call e inj o) k s)).
Proof.
  intros Hb -> H. apply (wpd_call b); [done|discriminate|].
  intros a' Ha. by injection Ha as <-.
Qed.

Lemma wpd_call_inl {A} (b : bool) e inj (o : result A) x (k : A -> M B) s :
  rel e = b -> o = inl x ->
  P {| events := rev_append (cons_if b (Raised e x) acc) [];
       final := s; outcome := inl x |} ->
  P (after_kept rel acc (bind (call e inj o) k s)).
Proof.
  intros Hb -> H. apply (wpd_call b); [done| |discriminate].
  intros x' Hx. by injection Hx as <-.
Qed.

Lemma wpd_done (a : B) s :
  P {| events := rev_append acc []; final := s; outcome := inr a |} ->
  P (after_kept rel acc (ret a s)).
Proof. done. Qed.

End SteppingDigest.

Lemma wpd_start {B} (P : run B -> Prop) rel (m : M B) s :
  P (after_kept rel [] (bind m ret s)) -> P (digest rel (m s)).
Proof.
  intros H. rewrite (after_nil m s). exact H.
Qed.

Ltac reduce_cons_if :=
  lazymatch goal with
  | |- ?P (after_kept ?rel (cons_if true ?en ?acc) ?r) =>
      change (P (after_kept rel (en :: acc) r))
  | |- ?P (after_kept ?rel (cons_if false ?en ?acc) ?r) =>
      change (P (after_kept rel acc r))
  end.

(** One step of the run in a goal [P (after_kept rel acc (bind m k s))]. *)
Ltac digest_step :=
  lazymatch goal with
  | |- ?P (after_kept ?rel ?acc (bind (bind ?m ?f) ?g ?s)) =>
      apply (wpd_assoc P rel acc m f g s)
  | |- ?P (after_kept ?rel ?acc (bind (ret (filter ?f ?l)) ?k ?s)) =>
      let ps := fresh "params_to_update" in
      let E := fresh "E" in
      remember (filter f l) as ps eqn:E;
      apply (wpd_ret P rel acc ps k s); cbv beta
  | |- ?P (after_kept ?rel ?acc (bind (ret ?a) ?k ?s)) =>
      apply (wpd_ret P rel acc a k s); cbv beta
  | |- ?P (after_kept ?rel ?acc (bind (modify ?f) ?k ?s)) =>
      apply (wpd_modify P rel acc f k s); cbv beta; cbn [flags weights]
  | |- ?P (after_kept ?rel ?acc (bind get_flags ?k ?s)) =>
      apply (wpd_get_flags P rel acc k s); cbv beta
  | |- ?P (after_kept ?rel ?acc (bind (call ?e ?inj ?o) ?k ?s)) =>
      let b := eval lazy in (rel e) in
      lazymatch o with
      | inr ?a =>
          apply (wpd_call_inr P rel acc b e inj o a k s eq_refl eq_refl);
          cbv beta; reduce_cons_if
      | getattr (DDP_wrapper ?m) ?n =>
          apply (wpd_call_inl P rel acc b e inj o (AttributeError n) k s eq_refl eq_refl)
      | _ =>
          first
            [ match goal with
              | E : o = inr ?a |- _ =>
                  apply (wpd_call_inr P rel acc b e inj o a k s eq_refl E);
                  cbv beta; reduce_cons_if
              | E : o = inl ?x |- _ =>
                  apply (wpd_call_inl P rel acc b e inj o x k s eq_refl E)
              end
            | apply (wpd_call P rel acc b e inj o k s eq_refl);
              [ intros ? ? | intros ? ?; cbv beta; reduce_cons_if ] ]
      end
  | |- ?P (after_kept ?rel ?acc (bind (if ?b then ?m1 else ?m2) ?k ?s)) =>
      first
        [ match goal with
          | E : b = true |- _ => rewrite E
          | E : b = false |- _ => rewrite E
          end
        | lazymatch b with
          | true => change (P (after_kept rel acc (bind m1 k s)))
          | false => change (P (after_kept rel acc (bind m2 k s)))
          | _ => let E := fresh "E" in destruct b eqn:E
          end ]
  | |- ?P (after_kept ?rel ?acc (bind (let '(_, _) := _ in _) ?k ?s)) =>
      cbv beta iota zeta
  | |- ?P (after_kept ?rel ?acc (ret ?a ?s)) => apply (wpd_done P rel acc a s)
  | |- ?P (after_kept ?rel ?acc (bind ?m ?k ?s)) =>
      let m' := eval red in m in
      progress change (P (after_kept rel acc (bind m' k s)))
  end.

(** Runs the script behind the digest [d] of the goal to completion, one
    goal per path, each with the kept entries written out. *)
Ltac run_digest d :=
  let P := fresh "P" in
  pattern d;
  lazymatch goal with
  | |- ?Q d => set (P := Q); subst d; apply wpd_start
  end;
  repeat digest_step;
  subst P; cbv beta; cbn [cons_if rev_append events final outcome].

Lemma checkpoint_first_digest {A} rel (r : run A) :
  (forall e, rel e = false -> is_wrap_or_freeze e = false /\ is_checkpoint_op e = false) ->
  checkpoint_first (ops (digest rel r)) = checkpoint_first (ops r).
Proof.
  intros Hrel. unfold ops, digest; simpl.
  assert (Hall : forall l : list entry,
             forallb (fun e' => negb (is_checkpoint_op e'))
               (map event_of (omap (keep rel) l))
             = forallb (fun e' => negb (is_checkpoint_op e')) (map event_of l)).
  { induction l as [|en l IH]; [done|].
    simpl. destruct (keep rel en) as [en'|] eqn:Ek; unfold keep in Ek;
      destruct (rel (event_of en)) eqn:E; try discriminate.
    - injection Ek as <-. simpl. f_equal. apply IH.
    - destruct (Hrel _ E) as [_ ->]. simpl. apply IH. }
  induction (events r) as [|en l IH]; [done|].
  simpl. destruct (keep rel en) as [en'|] eqn:Ek; unfold keep in Ek;
    destruct (rel (event_of en)) eqn:E; try discriminate.
  - injection Ek as <-. simpl. destruct (is_wrap_or_freeze (event_of en)).
    + apply Hall.
    + apply IH.
  - destruct (Hrel _ E) as [-> _]. apply IH.
Qed.

Lemma getitem_contains d k k' v :
  getitem d k' = inr v -> contains k d = inr true -> exists p, getitem d k = inr p.
Proof.
  destruct d; try discriminate. simpl. intros _ Hc.
  injection Hc as Hc. apply bool_decide_eq_true in Hc as [p Hp].
  exists p. by rewrite Hp.
Qed.

Lemma getitem_not_contains d k p :
  getitem d k = inr p -> contains k d = inr false -> False.
Proof.
  destruct d; try discriminate. simpl. intros Hg Hc.
  injection Hc as Hc. apply bool_decide_eq_false in Hc. apply Hc.
  destruct (assoc k items); [by eexists|discriminate].
Qed.

Lemma omap_events_digest {A B} (g : entry -> option B) rel (r : run A) :
  (forall en, rel (event_of en) = false -> g en = None) ->
  omap g (events (digest rel r)) = omap g (events r).
Proof. apply omap_keep. Qed.

(** States the goal about the run [r] on its digest, for the projections
    that only look at operations [rel] keeps. *)
Ltac to_digest rel r :=
  unfold steps, train_calls, adam_calls, NSLoader_calls, torch_loads,
    state_dict_loads, attr_accesses, requires_grad_calls, lookups, wrappings,
    setup_calls, cleanup_calls, instances, moved, loaded;
  rewrite <- ?(omap_ops_digest _ rel r) by (by intros []);
  rewrite <- ?(omap_events_digest _ rel r) by (by intros [[] ?|[] ?]);
  rewrite <- ?(checkpoint_first_digest rel r) by (by intros []);
  change (final r) with (final (digest rel r));
  change (outcome r) with (outcome (digest rel r)).

Ltac inv_elem H :=
  repeat first
    [ by apply elem_of_nil in H
    | apply elem_of_cons in H as [H|H]; [simplify_eq|] ].

(** ** Runs in one process *)

Lemma subprocess_fn_local (L : library) (rank : Z) (a : args) :
  distributed a = false -> every local_entry (subprocess_fn L rank a).
Proof. intros Hd. run_every ltac:(exact I). Qed.

(** ** Exceptions *)

Lemma subprocess_fn_clean (L : library) (rank : Z) (a : args) :
  clean (subprocess_fn L rank a).
Proof. solve_clean. Qed.

Ltac solve_faithful :=
  cbn [faithful performs];
  repeat match goal with
         | E : ?o = _ |- context [?o] => rewrite E
         end;
  reflexivity.

Lemma subprocess_fn_faithful (L : library) (rank : Z) (a : args) :
  every (faithful L) (subprocess_fn L rank a).
Proof. run_every solve_faithful. Qed.

Lemma last_elem_of {A} (l : list A) x : last l = Some x -> x ∈ l.
Proof.
  induction l as [|y l IH]; [done|]. destruct l as [|z l].
  - intros [= ->]. left.
  - intros H. right. by apply IH.
Qed.

(** C5.  [subprocess_fn] has no handler and no [raise] of its own.  The
    exception a run ends with is the one its last operation raised, as the
    library or the dictionary gave it; an operation that raises is the
    last of the run and its exception is the outcome; every operation
    before it returned.  So a key missing from a mapping the script reads
    ends the run with the [KeyError] of that key, and a failing
    [torch.load] ends it with the exception of [torch.load]. *)
Theorem exceptions_propagate (L : library) (rank : Z) (a : args) (s : store) :
  let r := subprocess_fn L rank a s in
  (forall x, outcome r = inl x ->
     exists e, last (events r) = Some (Raised e x) /\ performs L e = inl x)
  /\ (forall e x, e ∈ ops r -> performs L e = inl x ->
        outcome r = inl x /\ last (events r) = Some (Raised e x))
  /\ (forall items key, EGetItem (YMap items) key ∈ ops r ->
        assoc key items = None -> outcome r = inl (KeyError key))
  /\ (forall path x, ETorchLoad path ∈ ops r -> torch_load L path = inl x ->
        outcome r = inl x)
  /\ (outcome r = inr tt -> forall en, en ∈ events r -> exists e v, en = Returned e v).
Proof.
  intros r.
  pose proof (clean_propagates _ s (subprocess_fn_clean L rank a)) as Hp.
  pose proof (subprocess_fn_faithful L rank a s) as Hf.
  fold r in Hp, Hf. rewrite Forall_forall in Hf.
  assert (forall e x, e ∈ ops r -> performs L e = inl x ->
            outcome r = inl x /\ last (events r) = Some (Raised e x)) as Hraise.
  { intros e x He Hx. apply elem_of_ops_entry in He as (en & Hen & <-).
    pose proof (Hf en Hen) as Hfen. destruct en as [e v|e x']; simpl in *.
    - congruence.
    - assert (x' = x) as -> by congruence. by apply propagates_raised. }
  split; [|split; [exact Hraise|split; [|split]]].
  - intros x Hx. destruct (propagates_outcome _ _ _ Hp Hx) as [e He].
    exists e. split; [done|]. apply (Hf (Raised e x)). by apply last_elem_of.
  - intros items key He Hk. apply (Hraise _ (KeyError key)) in He; [by destruct He|].
    simpl. by rewrite Hk.
  - intros path x He Hx. apply (Hraise _ x) in He; [by destruct He|].
    simpl. by rewrite Hx.
  - intros Hok [e v|e x] Hen; [by eexists _, _|].
    apply propagates_raised with (oc := outcome r) in Hen as [Hen _]; [|done].
    congruence.
Qed.

Lemma exceptions_propagate_witness :
  let config := YMap [(YStr "model", YMap []); (YStr "train", YMap [])] in
  let L := example_library config example_net in
  let r := subprocess_fn L 0 (example_args 1) fresh_store in
  EGetItem config "data" ∈ ops r
  /\ outcome r = inl (KeyError "data").
Proof.
  intros config L r.
  assert (EGetItem config "data" ∈ ops r) as Hin by (vm_compute; solve_elem).
  split; [exact Hin|].
  destruct (exceptions_propagate L 0 (example_args 1) fresh_store) as (_ & _ & H & _).
  exact (H _ "data" Hin eq_refl).
Defined.

(** ** The data loader *)

Ltac solve_NSLoader :=
  cbn [NSLoader_entry event_of];
  first
    [ exact I
    | unfold from_data_section;
      cbn [datapath1 datapath2 nx nt sub sub_t N t_interval];
      repeat split; intros;
      first [ assumption | by eexists | congruence
            | match goal with H : is_Some None |- _ => by destruct H end ] ].

Lemma subprocess_fn_NSLoader (L : library) (rank : Z) (a : args) config data :
  loads L a config -> getitem config "data" = inr data ->
  every (NSLoader_entry data) (subprocess_fn L rank a).
Proof.
  intros (stream & Hopen & Hload) Hdata. run_every solve_NSLoader.
Qed.

(** A section that has a key is a mapping, and membership in a mapping
    does not raise. *)
Lemma getitem_contains_bool d k k' v :
  getitem d k = inr v -> exists b, contains k' d = inr b.
Proof. destruct d; try discriminate. intros _. by eexists. Qed.

(** The membership test the arguments [ns] of the constructor stand for. *)
Lemma from_data_section_contains data ns :
  from_data_section data ns ->
  contains "datapath2" data = inr (bool_decide (is_Some (datapath2 ns))).
Proof.
  intros (Hiff & _ & H1 & _).
  destruct (getitem_contains_bool _ _ "datapath2" _ H1) as [b Hb].
  rewrite Hb. f_equal. destruct b.
  - symmetry. apply bool_decide_eq_true. by apply Hiff.
  - symmetry. apply bool_decide_eq_false. intros Hs. apply Hiff in Hs. congruence.
Qed.

(** C8.  When the configuration loads and has a section [data], every
    [NSLoader] call gets a second data path exactly when the section has
    the key [datapath2], and that path is the value of the key; the other
    arguments are, in both branches, the values of the same keys of the
    section: [datapath], [nx], [nt], [sub], [sub_t], [total_num] and
    [time_interval].  And the constructor is called: in a run that gets
    past [setup], whenever the section has these seven keys [NSLoader] is
    called, once, with their values, with the value of [datapath2] as
    second data path if the section has that key and without a second
    data path if it has not. *)
Theorem NSLoader_second_path (L : library) (rank : Z) (a : args) (s : store)
    (config data : yaml) :
  loads L a config -> getitem config "data" = inr data ->
  let r := subprocess_fn L rank a s in
  (forall ns, ns ∈ NSLoader_calls r -> from_data_section data ns)
  /\ ((distributed a = true -> setup L rank (num_gpus a) = inr tt) ->
      forall ns, from_data_section data ns -> NSLoader_calls r = [ns]).
Proof.
  intros Hload Hdata r. split.
  - intros ns Hin. unfold NSLoader_calls in Hin.
    apply (every_calls (NSLoader_entry data)) in Hin as (en & _ & HQ & Hf);
      [|by apply subprocess_fn_NSLoader with (config := config)].
    unfold NSLoader_entry in HQ.
    destruct (event_of en); try discriminate. by injection Hf as <-.
  - intros Hsetup ns Hfd.
    pose proof (from_data_section_contains _ _ Hfd) as Hc.
    destruct Hload as (stream & Hopen & Hload).
    destruct Hfd as (_ & Hv2 & H1 & Hnx & Hnt & Hsub & Hsubt & HN & Hti).
    destruct ns as [v1 [v2|] vnx vnt vsub vsubt vN vti]; simpl in *.
    all: try specialize (Hv2 _ eq_refl).
    all: destruct (distributed a) eqn:Hd;
      [specialize (Hsetup eq_refl)|clear Hsetup].
    all: to_digest is_NSLoader r; set (d := digest is_NSLoader r); subst r.
    all: run_digest d.
    all: reflexivity.
Qed.

Lemma NSLoader_second_path_witness :
  let L := fun second_path =>
    example_library (example_config second_path false) example_net in
  let a := example_args 1 in
  let r := fun second_path => subprocess_fn (L second_path) 0 a fresh_store in
  let ns := fun second_path =>
    {| datapath1 := YStr "data/NS_fine_Re500_s2048_T100.npy";
       datapath2 := if second_path : bool
                    then Some (YStr "data/NS_fine_Re500_T128_part2.npy") else None;
       nx := YInt 64; nt := YInt 64; sub := YInt 1; sub_t := YInt 1;
       N := YInt 100; t_interval := YFloat "0.5" |} in
  (forall b, loads (L b) a (example_config b false))
  /\ (forall b, getitem (example_config b false) "data" = inr (example_data b))
  /\ (forall b, from_data_section (example_data b) (ns b))
  /\ NSLoader_calls (r true) = [ns true]
  /\ NSLoader_calls (r false) = [ns false].
Proof.
  intros L a r ns.
  assert (forall b, loads (L b) a (example_config b false)) as Hl
    by (intros b; exists 1%nat; split; reflexivity).
  assert (forall b, from_data_section (example_data b) (ns b)) as Hfd.
  { intros [|].
    - split; [split; [reflexivity|by eexists]|].
      split; [intros v [= <-]; reflexivity|]. by repeat split.
    - split; [split; [by intros [? ?]|intros H; vm_compute in H; discriminate]|].
      split; [by intros v|]. by repeat split. }
  split; [exact Hl|]. split; [reflexivity|]. split; [exact Hfd|].
  split.
  - destruct (NSLoader_second_path (L true) 0 a fresh_store _ _ (Hl true) eq_refl)
      as [_ H].
    apply H; [discriminate|apply Hfd].
  - destruct (NSLoader_second_path (L false) 0 a fresh_store _ _ (Hl false) eq_refl)
      as [_ H].
    apply H; [discriminate|apply Hfd].
Defined.

(** ** Reading the configuration *)

Ltac solve_two_level config :=
  lazymatch goal with
  | |- two_level config ?v =>
      match goal with
      | H1 : getitem config ?section = inr ?d, H2 : getitem ?d ?key = inr v |- _ =>
          exists section, key, d; split; [solve_elem | by split]
      end
  end.

Ltac solve_config config :=
  cbn [config_entry event_of];
  lazymatch goal with
  | |- (?d = config /\ _) \/ _ =>
      first
        [ left; split; [reflexivity | solve_elem]
        | right;
          match goal with
          | H : getitem config ?section = inr d |- _ =>
              exists section; split; [solve_elem | exact H]
          end ]
  | |- Forall _ _ =>
      cbn [config_values from_option app datapath1 datapath2 nx nt sub sub_t N
             t_interval t_project t_group];
      repeat first [ apply Forall_nil_2 | apply Forall_cons_2; [solve_two_level config|] ]
  end.

Lemma subprocess_fn_config (L : library) (rank : Z) (a : args) config :
  loads L a config -> every (config_entry config) (subprocess_fn L rank a).
Proof.
  intros (stream & Hopen & Hload). run_every ltac:(solve_config config).
Qed.

(** C4 as stated: in a run on the example configuration the path of the
    data file reaches [NSLoader], and no single key access on the loaded
    mapping yields it: the four keys of the mapping give the sections. *)
Lemma config_lookup_not_flat :
  let config := example_config false false in
  let r := subprocess_fn (example_library config example_net) 0 (example_args 1)
             fresh_store in
  ~ (forall v, v ∈ flat_map config_values (ops r) -> one_level config v).
Proof.
  intros config r H.
  destruct (H (YStr "data/NS_fine_Re500_s2048_T100.npy")) as [key Hkey].
  { vm_compute. apply list_elem_of_here. }
  unfold config, example_config in Hkey. cbn [getitem assoc] in Hkey.
  repeat (destruct (is_key key _); [discriminate|]). discriminate.
Qed.

(** C4, amended.  When the configuration loads, every value of the
    configuration the script passes on is read in two nested key accesses,
    [config[section][key]], with the section and the key among those the
    script names; and every key access of a run is either that of a
    section on the loaded mapping or that of such a key on a section. *)
Theorem config_values_two_level (L : library) (rank : Z) (a : args) (s : store)
    (config : yaml) :
  loads L a config ->
  let r := subprocess_fn L rank a s in
  (forall v, v ∈ flat_map config_values (ops r) -> two_level config v)
  /\ (forall d key, (d, key) ∈ lookups r ->
        (d = config /\ key ∈ sections)
        \/ (exists section,
              (section, key) ∈ config_keys /\ getitem config section = inr d)).
Proof.
  intros Hload r.
  pose proof (subprocess_fn_config L rank a config Hload s) as H.
  fold r in H. rewrite Forall_forall in H. split.
  - intros v Hv. apply list_elem_of_In, in_flat_map in Hv as (e & He & Hv).
    apply list_elem_of_In, elem_of_ops_entry in He as (en & Hen & <-).
    apply list_elem_of_In in Hv.
    specialize (H en Hen). unfold config_entry in H.
    destruct (event_of en); try (rewrite Forall_forall in H; by apply H).
    by apply elem_of_nil in Hv.
  - intros d key Hin. unfold lookups in Hin.
    apply list_elem_of_omap in Hin as (e & He & Hf).
    apply elem_of_ops_entry in He as (en & Hen & <-).
    specialize (H en Hen). unfold config_entry in H.
    destruct (event_of en); try discriminate. by injection Hf as <- <-.
Qed.

Lemma config_values_two_level_witness :
  let config := example_config false false in
  let L := example_library config example_net in
  let a := example_args 1 in
  let r := subprocess_fn L 0 a fresh_store in
  loads L a config
  /\ YStr "data/NS_fine_Re500_s2048_T100.npy" ∈ flat_map config_values (ops r)
  /\ two_level config (YStr "data/NS_fine_Re500_s2048_T100.npy").
Proof.
  intros config L a r.
  assert (loads L a config) as Hl by (exists 1%nat; split; reflexivity).
  assert (YStr "data/NS_fine_Re500_s2048_T100.npy" ∈ flat_map config_values (ops r))
    as Hin by (vm_compute; apply list_elem_of_here).
  split; [exact Hl|]. split; [exact Hin|].
  destruct (config_values_two_level L 0 a fresh_store config Hl) as [H _].
  exact (H _ Hin).
Defined.

(** ** The order of the steps *)

Ltac solve_order :=
  split; [eexists; cbv; reflexivity|];
  split; [intros; first [discriminate | reflexivity]|];
  split; [cbv; lia|]; intros; first [discriminate | reflexivity].

Lemma subprocess_fn_scheduler (L : library) (rank : Z) (a : args) :
  every (scheduler_entry L) (subprocess_fn L rank a).
Proof.
  run_every ltac:(cbn [scheduler_entry event_of];
                  first [exact I | eexists _, _, _; eassumption]).
Qed.

(** The steps of the log [l] are not among the later ones. *)
Ltac solve_cut_short :=
  cbn [outcome];
  split; [discriminate|];
  split; [reflexivity|];
  cbv; repeat split; intros Hin; inv_elem Hin.

(** C9.  On every run the steps of [subprocess_fn] follow the order of the
    source: configuration, data loader, model, optional checkpoint,
    freezing, Adam, scheduler, forcing term, [train]; a run an exception
    cuts short went through an initial part of this order, a run that
    returns went through all of it and called [train] exactly once, and
    the scheduler is built on the optimizer [Adam] returned.  But a
    distributed run is always cut short, whatever the libraries do: it
    does not return, it gets no further than the freezing step, so it
    builds no optimizer, no scheduler and no forcing term, and it never
    calls [train]. *)
Theorem subprocess_fn_order (L : library) (rank : Z) (a : args) (s : store) :
  let r := subprocess_fn L rank a s in
  (exists with_ckpt : bool,
     steps r `prefix_of` script_order with_ckpt
     /\ (outcome r = inr tt -> steps r = script_order with_ckpt)
     /\ (length (train_calls r) <= 1)%nat
     /\ (outcome r = inr tt -> length (train_calls r) = 1%nat))
  /\ (forall o ms g, EMultiStepLR o ms g ∈ ops r ->
        exists ps betas lr, Adam L ps betas lr = inr o)
  /\ (distributed a = true ->
      outcome r <> inr tt
      /\ train_calls r = []
      /\ (ConstructAdam ∉ steps r) /\ (ConstructScheduler ∉ steps r)
      /\ (ComputeForcing ∉ steps r) /\ (CallTrain ∉ steps r)).
Proof.
  intros r. split; [|split].
  - unfold steps, train_calls.
    rewrite <- !(omap_ops_digest _ is_step r) by (by intros []).
    change (outcome r) with (outcome (digest is_step r)).
    set (d := digest is_step r). subst r. run_digest d.
    all: first [ exists true; solve_order | exists false; solve_order ].
  - intros o ms g Hin. apply elem_of_ops_entry in Hin as (en & Hen & He).
    pose proof (subprocess_fn_scheduler L rank a s) as H.
    rewrite Forall_forall in H. specialize (H en Hen).
    unfold scheduler_entry in H. by rewrite He in H.
  - intros Hd. unfold steps, train_calls.
    rewrite <- !(omap_ops_digest _ is_step r) by (by intros []).
    change (outcome r) with (outcome (digest is_step r)).
    set (d := digest is_step r). subst r. run_digest d.
    all: solve_cut_short.
Qed.

(** With two processes, in a setting where every library call succeeds:
    the worker goes through the configuration, the data loader, the
    model, the checkpoint and into the freezing step, where it ends with
    [AttributeError] at [model.sp_convs]; [train] is never called.  In
    one process the same setting goes through the whole order. *)
Lemma subprocess_fn_order_witness :
  let L := example_library (example_config false true) example_net in
  let r2 := subprocess_fn L 0 (example_args 2) fresh_store in
  let r1 := subprocess_fn L 0 (example_args 1) fresh_store in
  distributed (example_args 2) = true
  /\ steps r2 = [LoadConfig; ConstructData; ConstructModel; LoadCheckpoint; Freeze]
  /\ outcome r2 = inl (AttributeError "sp_convs")
  /\ train_calls r2 = []
  /\ (CallTrain ∉ steps r2)
  /\ steps r1 = script_order true
  /\ length (train_calls r1) = 1%nat.
Proof.
  intros L r2 r1.
  destruct (subprocess_fn_order L 0 (example_args 2) fresh_store)
    as (_ & _ & Hcut).
  destruct (Hcut eq_refl) as (_ & Htrain & _ & _ & _ & Hsteps).
  split; [reflexivity|]. split; [vm_compute; reflexivity|].
  split; [vm_compute; reflexivity|]. split; [exact Htrain|].
  split; [exact Hsteps|]. split; vm_compute; reflexivity.
Defined.

(** ** The checkpoint *)

Ltac absurd_ckpt :=
  exfalso;
  match goal with
  | Hc : contains "ckpt" ?t = inr true, Hg : getitem ?t "ckpt" = inl _,
    Hb : getitem ?t "batchsize" = inr _ |- _ =>
      destruct (getitem_contains _ _ _ _ Hb Hc) as [? ?]; congruence
  | Hc : contains "ckpt" ?t = inr false, Hg : getitem ?t "ckpt" = inr _ |- _ =>
      exact (getitem_not_contains _ _ _ Hg Hc)
  end.

(** What the library answered for the call of [H] is what the run got
    from it. *)
Ltac same_result H :=
  match type of H with
  | ?o = _ =>
      match goal with
      | E : o = _ |- _ =>
          tryif constr_eq E H then fail else (rewrite E in H; simplify_eq)
      end
  end.

Ltac solve_loaded :=
  split; [reflexivity|];
  intros Hl; first [congruence | by split].

Ltac solve_ckpt :=
  cbn;
  split; [intros Hne; first [by destruct Hne | assumption | congruence]|];
  split; [intros Hc m Hm;
          first [ congruence
                | by inv_elem Hm
                | absurd_ckpt
                | inv_elem Hm;
                  eexists; split; [eassumption|]; split; [reflexivity|];
                  intros ckpt sd Htl Hg;
                  same_result Htl; same_result Hg; solve_loaded ]|];
  split; [intros m sd Hin; inv_elem Hin;
          (split; [reflexivity|eexists _, _; repeat split; eassumption])|];
  split; [intros sd Hin; inv_elem Hin; reflexivity|];
  split; [reflexivity|];
  intros Hc; first [congruence | by repeat split | absurd_ckpt].

(** C7.  With a configuration that loads and has a section [train]:
    [torch.load] is called only if the section has the key [ckpt].  If it
    has the key, a run that gets as far as a constructed model [m] calls
    [torch.load] once, on the path under that key; when [torch.load]
    returns a checkpoint whose entry [model] is [sd], the run calls
    [m.load_state_dict(sd)], once, and when that call returns [sd] is the
    state dict the model holds at the end.  What [load_state_dict]
    receives is always the entry [model] of what [torch.load] returned,
    for the model the constructor returned.  No checkpoint operation
    comes after the wrapping in [DistributedDataParallel] or after an
    operation of the freezing step.  Without the key nothing is loaded
    and the weights are left as they were. *)
Theorem checkpoint_loading (L : library) (rank : Z) (a : args) (s : store)
    (config t : yaml) :
  loads L a config -> getitem config "train" = inr t ->
  let r := subprocess_fn L rank a s in
  (torch_loads r <> [] -> contains "ckpt" t = inr true)
  /\ (contains "ckpt" t = inr true -> forall m, m ∈ moved r ->
      exists p, getitem t "ckpt" = inr p /\ torch_loads r = [p]
        /\ forall ckpt sd,
             torch_load L p = inr ckpt -> obj_getitem L ckpt "model" = inr sd ->
             state_dict_loads r = [(m, sd)]
             /\ (load_state_dict L m sd = inr tt ->
                 loaded r = [sd] /\ weights (final r) = Some sd))
  /\ (forall m sd, (m, sd) ∈ state_dict_loads r ->
        instances r = [m]
        /\ exists p ckpt, getitem t "ckpt" = inr p /\ torch_load L p = inr ckpt
                          /\ obj_getitem L ckpt "model" = inr sd)
  /\ (forall sd, sd ∈ loaded r -> weights (final r) = Some sd)
  /\ checkpoint_first (ops r) = true
  /\ (contains "ckpt" t = inr false ->
      torch_loads r = [] /\ state_dict_loads r = [] /\ weights (final r) = weights s).
Proof.
  intros (stream & Hopen & Hload) Ht r.
  to_digest on_model r.
  set (d := digest on_model r). subst r. run_digest d.
  all: solve_ckpt.
Qed.

Lemma checkpoint_loading_witness :
  let config := example_config false true in
  let L := example_library config example_net in
  let a := example_args 1 in
  let r := subprocess_fn L 0 a fresh_store in
  loads L a config
  /\ getitem config "train" = inr (example_train true)
  /\ contains "ckpt" (example_train true) = inr true
  /\ example_net ∈ moved r
  /\ torch_loads r = [YStr "checkpoints/Re500-FDM/pretrain.pt"]
  /\ state_dict_loads r = [(example_net, 7%nat)]
  /\ loaded r = [7%nat]
  /\ weights (final r) = Some 7%nat.
Proof.
  intros config L a r.
  assert (loads L a config) as Hl by (exists 1%nat; split; reflexivity).
  assert (example_net ∈ moved r) as Hm by (vm_compute; apply list_elem_of_here).
  split; [exact Hl|]. split; [reflexivity|]. split; [reflexivity|].
  split; [exact Hm|].
  destruct (checkpoint_loading L 0 a fresh_store config (example_train true) Hl eq_refl)
    as (_ & Hp & _).
  destruct (Hp eq_refl example_net Hm) as (p & Hget & Hloads & Hsd).
  vm_compute in Hget. injection Hget as <-.
  split; [exact Hloads|].
  destruct (Hsd 6%nat 7%nat eq_refl eq_refl) as (Hcalls & Hw).
  split; [exact Hcalls|]. exact (Hw eq_refl).
Defined.

(** ** The receivers of the unfreezing *)




(** ** The freezing step behind the wrapper *)

Lemma parameters_wrapper m : parameters (DDP_wrapper m) = parameters m.
Proof. unfold parameters, DDP_wrapper. simpl. by rewrite app_nil_r. Qed.

Ltac solve_fails :=
  cbn;
  split; [discriminate|];
  split; [reflexivity|];
  split; [reflexivity|];
  split; [intros recv b Hin; inv_elem Hin; reflexivity|];
  intros m Hin; inv_elem Hin;
  (split; [reflexivity|]);
  intros p Hp; unfold set_flags; rewrite app_nil_r;
  by rewrite bool_decide_eq_true_2.

(** X1.  A distributed run never gets past the freezing step: it does not
    return, and neither [Adam] nor [train] is called.  Once the wrapper
    has been frozen the run ends with the [AttributeError] of [sp_convs]
    and every parameter of the wrapped network is left frozen. *)
Lemma distributed_run_fails (L : library) (rank : Z) (a : args) (s : store) :
  distributed a = true ->
  let r := subprocess_fn L rank a s in
  outcome r <> inr tt
  /\ adam_calls r = []
  /\ train_calls r = []
  /\ (forall recv b, (recv, b) ∈ requires_grad_calls r -> b = false)
  /\ (forall m, (DDP_wrapper m, false) ∈ requires_grad_calls r ->
        outcome r = inl (AttributeError "sp_convs")
        /\ forall p, p ∈ parameters m -> flags (final r) p = false).
Proof.
  intros Hd r.
  to_digest on_model r. set (d := digest on_model r). subst r.
  run_digest d.
  all: solve_fails.
Qed.

(** C1 at the command line [--num_gpus 2], beside [--num_gpus 1].  In one
    process the run returns, [Adam] gets the parameters of the last
    spectral convolution, of the last pointwise convolution and of the
    two projection layers, and exactly these require a gradient at the
    end.  With two processes each worker ends with [AttributeError] at
    [model.sp_convs]: nothing is re-enabled, every parameter is left
    frozen and [Adam] and [train] are never called. *)
Theorem distributed_unfreezing_fails :
  let L := fun _ : Z => example_library (example_config false true) example_net in
  let cmd := fun n => ["--config_path"; "configs/finetune/Re500-finetune.yaml";
                       "--num_gpus"; n] in
  match main int_of_decimal ascii_negative_number L (cmd "1") fresh_store with
  | InProcess r =>
      outcome r = inr tt
      /\ adam_calls r = [[6; 7; 8; 9; 12; 13; 14; 15; 16; 17]%nat]
      /\ filter (fun p => flags (final r) p = true) (parameters example_net)
         = [6; 7; 8; 9; 12; 13; 14; 15; 16; 17]%nat
  | _ => False
  end
  /\ match main int_of_decimal ascii_negative_number L (cmd "2") fresh_store with
     | Spawned workers =>
         map fst workers = [0; 1]
         /\ Forall (fun w =>
                      outcome w.2 = inl (AttributeError "sp_convs")
                      /\ adam_calls w.2 = []
                      /\ train_calls w.2 = []
                      /\ filter (fun p => flags (final w.2) p = true)
                           (parameters example_net) = []) workers
     | _ => False
     end.
Proof.
  intros L cmd.
  repeat match goal with
         | |- context [main ?i ?n ?l ?v ?s] =>
             let r := eval vm_compute in (main i n l v s) in
             change (main i n l v s) with r
         end.
  cbv beta iota. split.
  - repeat split; vm_compute; reflexivity.
  - split; [reflexivity|].
    repeat (apply Forall_cons; split; [repeat split; vm_compute; reflexivity|]).
    apply Forall_nil_2.
Qed.


Lemma distributed_run_fails_witness :
  let L := example_library (example_config false true) example_net in
  let a := example_args 2 in
  let r := subprocess_fn L 0 a fresh_store in
  distributed a = true
  /\ outcome r = inl (AttributeError "sp_convs")
  /\ adam_calls r = [] /\ train_calls r = [].
Proof.
  intros L a r.
  destruct (distributed_run_fails L 0 a fresh_store eq_refl)
    as (_ & Hadam & Htrain & _ & Hfreeze).
  split; [reflexivity|]. split; [|by split].
  apply (Hfreeze example_net). vm_compute. apply list_elem_of_here.
Defined.

(** ** The command line *)

Section ArgparseFacts.

Import Argparse.

Context {NS : Type}.
Variable nnl : string -> bool.

Implicit Types (p : parser NS) (a : action NS) (ns : NS)
  (ws rest : list (string * option (word_class NS))).

Lemma find_option_elem o (t : list (string * action NS)) a :
  find_option o t = Some a -> (o, a) ∈ t.
Proof.
  induction t as [|[o' a'] t IH]; simpl; [done|].
  case_bool_decide; intros Hf.
  - simplify_eq. left.
  - right. auto.
Qed.

Lemma get_option_tuples_table p w a o e :
  (a, o, e) ∈ get_option_tuples p w -> (o, a) ∈ option_table p.
Proof.
  unfold get_option_tuples. intros H.
  destruct (second_is_dash w).
  - destruct (split_eq w) as [[l r]|];
      apply list_elem_of_In, in_flat_map in H as [[o' a'] [Hin Ho]];
      apply list_elem_of_In in Hin;
      destruct (is_prefix _ o'); simpl in Ho; intuition (by simplify_eq).
  - apply list_elem_of_In, in_flat_map in H as [[o' a'] [Hin Ho]].
    apply list_elem_of_In in Hin.
    case_bool_decide; [|destruct (is_prefix w o')]; simpl in Ho; intuition (by simplify_eq).
Qed.

(** The option a word selects is one of the parser's. *)
Lemma parse_optional_table p w a o e :
  parse_optional nnl p w = Optional (Some a) o e -> (o, a) ∈ option_table p.
Proof.
  unfold parse_optional. destruct w as [|c rest]; [done|].
  destruct (negb _); [done|].
  destruct (find_option (String c rest) _) eqn:E1.
  { intros [= <- <- <-]. by apply find_option_elem. }
  destruct (bool_decide (rest = EmptyString)); [done|].
  assert (match get_option_tuples p (String c rest) with
          | [] => if nnl (String c rest) then Positional
                  else if is_substring " " (String c rest) then Positional
                       else Optional None (String c rest) None
          | [(a0, o0, e0)] => Optional (Some a0) o0 e0
          | _ :: _ :: _ => Ambiguous
          end = Optional (Some a) o e -> (o, a) ∈ option_table p) as Htup.
  { destruct (get_option_tuples p (String c rest)) as [|[[a0 o0] e0] [|]] eqn:E.
    - by repeat case_match.
    - intros [= <- <- <-]. apply (get_option_tuples_table p (String c rest) a0 o0 e0).
      rewrite E. left.
    - done. }
  destruct (split_eq _) as [[o1 e1]|] eqn:E2; [|done].
  destruct (find_option o1 _) eqn:E3; [|done].
  intros [= <- <- <-]. by apply find_option_elem.
Qed.

(** A command line without a bare ['--'] is read word by word. *)
Lemma classify_words p argv ws :
  classify nnl p argv = Some ws ->
  Forall (fun wc => wc.2 <> None) ws ->
  ws = map (fun w => (w, Some (parse_optional nnl p w))) argv.
Proof.
  revert ws. induction argv as [|w argv IH]; intros ws; simpl.
  { by intros [= <-]. }
  case_bool_decide.
  { intros [= <-] Hws. by apply Forall_cons in Hws as [? _]. }
  destruct (classify nnl p argv) as [l|].
  - intros H1 H2.
    assert (ws = (w, Some (parse_optional nnl p w)) :: l) as ->.
    { destruct (parse_optional nnl p w); by simplify_eq. }
    apply Forall_cons in H2 as [_ H2]. f_equal. by apply IH.
  - by destruct (parse_optional nnl p w).
Qed.

Lemma take_following_used a rest vs :
  take_following a rest = Some (vs, true) ->
  exists v rest', rest = (v, Some Positional) :: rest'.
Proof.
  unfold take_following. destruct (kind a); [|done..].
  destruct rest as [|[v [[| |]|]] rest']; try done. eauto.
Qed.

Lemma take_explicit_used p a o e rest l :
  take_explicit p a o e rest = Some (l, true) ->
  exists v rest', rest = (v, Some Positional) :: rest'.
Proof.
  revert a o l. induction e as [|c e IH]; intros a o l; simpl.
  { by destruct (kind a), (second_is_dash o). }
  destruct (kind a); [done| |];
    (destruct (second_is_dash o); [done|];
     destruct (find_option _ _) as [a'|]; [|done];
     destruct e as [|c' e'];
     [ destruct (take_following a' rest) as [[vs []]|] eqn:E; try done;
       intros _; by eapply take_following_used
     | destruct (take_explicit p a' _ (String c' e') rest) as [[l' []]|] eqn:E;
       try done; intros _; by eapply IH ]).
Qed.

(** The actions of one word: its own first, then those of the
    single-dash flags glued to it. *)
Lemma take_explicit_actions p a o e rest l used :
  take_explicit p a o e rest = Some (l, used) ->
  exists vs l', l = (a, vs) :: l'
    /\ Forall (fun avs => exists o', String.length o' = 2%nat
                                   /\ (o', avs.1) ∈ option_table p) l'.
Proof.
  revert a o l. induction e as [|c e IH]; intros a o l; simpl.
  { destruct (kind a) eqn:Ek; [|by destruct (second_is_dash o)..].
    intros [= <- <-]. eauto. }
  destruct (kind a); [intros [= <- <-]; eauto| |];
    (destruct (second_is_dash o); [done|];
     destruct (find_option _ _) as [a'|] eqn:Ef; [|done];
     apply find_option_elem in Ef;
     destruct e as [|c' e'];
     [ destruct (take_following a' rest) as [[vs u]|]; [|done];
       intros [= <- <-]; eexists _, _; split; [done|];
       apply Forall_cons; split; [|by apply Forall_nil];
       by exists (String "-" (String c EmptyString))
     | destruct (take_explicit p a' _ (String c' e') rest) as [[l' u]|] eqn:E;
       [|done]; intros [= <- <-];
       apply IH in E as (vs & l'' & -> & Hl'');
       eexists _, _; split; [done|];
       apply Forall_cons; split; [|done];
       by exists (String "-" (String c EmptyString)) ]).
Qed.

Lemma taken_by_used p a o e rest l :
  taken_by p a o e rest = Some (l, true) ->
  exists v rest', rest = (v, Some Positional) :: rest'.
Proof.
  unfold taken_by. destruct e.
  - apply take_explicit_used.
  - destruct (take_following a rest) as [[vs []]|] eqn:E; try done.
    intros _. by eapply take_following_used.
Qed.

Lemma taken_by_actions p a o e rest l used :
  taken_by p a o e rest = Some (l, used) ->
  exists vs l', l = (a, vs) :: l'
    /\ Forall (fun avs => exists o', String.length o' = 2%nat
                                   /\ (o', avs.1) ∈ option_table p) l'.
Proof.
  unfold taken_by. destruct e.
  - apply take_explicit_actions.
  - destruct (take_following a rest) as [[vs u]|]; [|done].
    intros [= <- <-]. eauto.
Qed.

(** Induction over a command line that parses: nothing is left over, and
    every step is an option word with the words it takes. *)
Lemma consume_Parsed_ind p
    (P : list (string * option (word_class NS)) -> NS -> NS -> Prop) :
  (forall ns, P [] ns ns) ->
  (forall w a o e rest l used ns ns1 ns',
     taken_by p a o e rest = Some (l, used) ->
     take_actions l ns = Parsed ns1 ->
     P (if used then tail rest else rest) ns1 ns' ->
     P ((w, Some (Optional (Some a) o e)) :: rest) ns ns') ->
  forall ws extras ns ns',
    consume p ws extras ns = Parsed ns' -> extras = [] /\ P ws ns ns'.
Proof.
  intros Hnil Hopt ws.
  remember (length ws) as n eqn:Hn.
  assert (length ws <= n)%nat as Hlen by lia. clear Hn.
  revert ws Hlen. induction n as [|n IH]; intros ws Hlen extras ns ns' H.
  { destruct ws; [|simpl in Hlen; lia]. simpl in H.
    destruct extras; [|done]. injection H as ->. by split. }
  destruct ws as [|[w c] rest].
  { simpl in H. destruct extras; [|done]. injection H as ->. by split. }
  simpl in Hlen.
  assert (consume p rest (extras ++ [w]) ns = Parsed ns' -> False) as Hextra.
  { intros H'. apply IH in H' as [H' _]; [|lia]. by destruct extras. }
  destruct c as [[|[a|] o e|]|]; try (by exfalso; apply Hextra).
  simpl in H.
  destruct (taken_by p a o e rest) as [[l used]|] eqn:Et; [|done].
  destruct (take_actions l ns) as [ns1|] eqn:Ea; [|done].
  assert (consume p (if used then tail rest else rest) extras ns1 = Parsed ns') as Hrec.
  { by destruct rest, used. }
  apply IH in Hrec as [-> HP].
  - split; [done|]. by eapply Hopt.
  - destruct used, rest; simpl in *; lia.
Qed.

(** In a command line that parses, a word is an argument of an option or
    selects an option other than the help. *)
Lemma consume_Parsed_words p ws extras ns ns' :
  consume p ws extras ns = Parsed ns' ->
  Forall (fun wc => wc.2 = Some Positional
                    \/ exists a o e, wc.2 = Some (Optional (Some a) o e)
                                     /\ kind a <> Help) ws.
Proof.
  intros H.
  apply (consume_Parsed_ind p (fun ws _ _ =>
    Forall (fun wc => wc.2 = Some Positional
                      \/ exists a o e, wc.2 = Some (Optional (Some a) o e)
                                       /\ kind a <> Help) ws)) in H as [_ H];
    [done|done|].
  clear. intros w a o e rest l used ns ns1 _ Ht Ha HP.
  apply Forall_cons; split.
  - right. exists a, o, e. split; [done|].
    apply taken_by_actions in Ht as (vs & l' & -> & _).
    simpl in Ha. intros Hk. by rewrite Hk in Ha.
  - destruct used; [|done].
    apply taken_by_used in Ht as (v & rest' & ->).
    apply Forall_cons; split; [by left|done].
Qed.

Lemma classify_cons p w argv :
  w <> "--" ->
  classify nnl p (w :: argv)
  = match parse_optional nnl p w with
    | Ambiguous => None
    | c => match classify nnl p argv with
           | Some l => Some ((w, Some c) :: l)
           | None => None
           end
    end.
Proof. intros Hw. simpl. by rewrite bool_decide_eq_false_2. Qed.

Lemma get_values_single (type : string -> option pyval) v :
  v <> "--" -> get_values type [v] = type v.
Proof. intros Hv. unfold get_values. simpl. by rewrite bool_decide_eq_false_2. Qed.

End ArgparseFacts.

(** ** The parser of the script *)

Section MainFacts.

Import Argparse.

Variable int : string -> option Z.
Variable nnl : string -> bool.

Lemma the_parser_table o a :
  (o, a) ∈ option_table (the_parser int) ->
  (kind a = Help /\ (o = "-h" \/ o = "--help"))
  \/ (o = "--config_path" /\ kind a = Store (fun s => Some (PStr s)) set_config_path)
  \/ (o = "--log" /\ kind a = StoreTrue (set_log true))
  \/ (o = "--num_gpus" /\ kind a = Store (fun s => PInt <$> int s) set_num_gpus).
Proof.
  intros H. cbn in H. inv_elem H; cbn; auto 10.
Qed.

Lemma take_actions_num_gpus l ns ns1 :
  Forall (fun avs => exists o, o <> "--num_gpus"
                               /\ (o, avs.1) ∈ option_table (the_parser int)) l ->
  take_actions l ns = Parsed ns1 -> ns_num_gpus ns1 = ns_num_gpus ns.
Proof.
  intros Hl. revert ns. induction Hl as [|[a vs] l (o & Ho & Hin) _ IH]; intros ns; simpl.
  { by intros [= <-]. }
  simpl in Hin.
  apply the_parser_table in Hin as [[-> _]|[[_ ->]|[[_ ->]|[? _]]]]; [done| | |done].
  - destruct (get_values _ vs); [|done]. intros H. by rewrite (IH _ H).
  - intros H. by rewrite (IH _ H).
Qed.

(** Only a word that selects [--num_gpus] changes its value. *)
Lemma consume_num_gpus ws extras ns ns' :
  consume (the_parser int) ws extras ns = Parsed ns' ->
  Forall (fun wc => forall a o e,
            wc.2 = Some (Optional (Some a) o e) ->
            (o, a) ∈ option_table (the_parser int) /\ o <> "--num_gpus") ws ->
  ns_num_gpus ns' = ns_num_gpus ns.
Proof.
  intros H.
  apply (consume_Parsed_ind (the_parser int) (fun ws ns ns' =>
    Forall (fun wc => forall a o e,
              wc.2 = Some (Optional (Some a) o e) ->
              (o, a) ∈ option_table (the_parser int) /\ o <> "--num_gpus") ws ->
    ns_num_gpus ns' = ns_num_gpus ns)) in H as [_ H]; [done|done|].
  clear. intros w a o e rest l used ns ns1 ns' Ht Ha IH Hws.
  apply Forall_cons in Hws as [Hw Hrest].
  destruct (Hw a o e eq_refl) as [Hin Ho].
  rewrite IH.
  - apply (take_actions_num_gpus l); [|done].
    apply taken_by_actions in Ht as (vs & l' & -> & Hl').
    apply Forall_cons; split; [by exists o|].
    eapply Forall_impl; [exact Hl'|]. intros [a' vs'] (o' & Hlen & Hin').
    exists o'. split; [|done]. by intros ->.
  - destruct used; [|done]. destruct rest; [done|].
    by apply Forall_cons in Hrest as [_ ?].
Qed.

(** A command line that parses and in which no word selects
    [--num_gpus] leaves the default. *)
Lemma parse_args_default_num_gpus argv ns :
  parse_args nnl (the_parser int) argv = Parsed ns ->
  Forall (fun w => selects nnl (the_parser int) "--num_gpus" w = false) argv ->
  ns_num_gpus ns = PInt 1.
Proof.
  unfold parse_args. destruct (classify _ _ argv) as [ws|] eqn:Ec; [|done].
  intros Hc Hsel.
  pose proof (consume_Parsed_words _ _ _ _ _ Hc) as Hw.
  apply classify_words in Ec.
  2:{ eapply Forall_impl; [exact Hw|]. intros [w c] [Hp|(a & o & e & Hp & _)];
        simpl in *; by rewrite Hp. }
  apply consume_num_gpus in Hc; [done|].
  rewrite Ec. apply Forall_fmap. eapply Forall_impl; [exact Hsel|].
  intros w Hs a o e [= Hp]. split; [by eapply parse_optional_table|].
  unfold selects in Hs. rewrite Hp in Hs. intros ->.
  by rewrite bool_decide_eq_true_2 in Hs.
Qed.

(** In a command line that parses, every word is an argument or selects
    one of the three options the script declares. *)
Lemma parse_args_words argv ns :
  parse_args nnl (the_parser int) argv = Parsed ns ->
  Forall (fun w => match parse_optional nnl (the_parser int) w with
                   | Positional => True
                   | Optional (Some _) o _ => o ∈ ["--config_path"; "--log"; "--num_gpus"]
                   | _ => False
                   end) argv.
Proof.
  unfold parse_args. destruct (classify _ _ argv) as [ws|] eqn:Ec; [|done].
  intros Hc.
  pose proof (consume_Parsed_words _ _ _ _ _ Hc) as Hw.
  apply classify_words in Ec.
  2:{ eapply Forall_impl; [exact Hw|]. intros [w c] [Hp|(a & o & e & Hp & _)];
        simpl in *; by rewrite Hp. }
  rewrite Ec in Hw. apply Forall_fmap in Hw.
  eapply Forall_impl; [exact Hw|]. intros w [[= Hp]|(a & o & e & [= Hp] & Hk)]; simpl.
  { by rewrite Hp. }
  rewrite Hp. apply parse_optional_table in Hp.
  apply the_parser_table in Hp as [[? _]|[[-> _]|[[-> _]|[-> _]]]];
    [done|solve_elem..].
Qed.

End MainFacts.

(** ** The main block *)

Lemma head_call_bind {A B} e inj (o : result A) (k : A -> M B) s :
  head (ops (bind (call e inj o) k s)) = Some e.
Proof. unfold ops, bind, call. by destruct o. Qed.

(** A worker of a distributed run joins the process group first. *)
Lemma subprocess_fn_setup_first (L : library) (rank : Z) (a : args) (s : store) :
  distributed a = true ->
  head (ops (subprocess_fn L rank a s)) = Some (ESetup rank (num_gpus a)).
Proof. intros Hd. unfold subprocess_fn. rewrite Hd. apply head_call_bind. Qed.

Lemma local_run_calls (L : library) (rank : Z) (a : args) (s : store) :
  distributed a = false ->
  let r := subprocess_fn L rank a s in
  setup_calls r = [] /\ cleanup_calls r = [] /\ wrappings r = [].
Proof.
  intros Hd r.
  pose proof (every_ops local_entry
    (fun e => match e with ESetup _ _ | ECleanup | EDDP _ _ _ => False | _ => True end)
    (subprocess_fn L rank a) s (subprocess_fn_local L rank a Hd) (fun en H => H)) as H.
  fold r in H.
  repeat split; apply omap_nil_Forall; (eapply Forall_impl; [exact H|]);
    by intros [].
Qed.

Lemma mp_spawn_ranks (fn : Z -> args -> M unit) (a : args) (n : Z) (s : store) :
  map fst (mp_spawn fn a n s) = map Z.of_nat (seq 0 (Z.to_nat n)).
Proof.
  unfold mp_spawn. rewrite map_map. by apply map_ext.
Qed.

(** C3. With a command line that parses and gives [--num_gpus] the number
    [n]: if [n] is greater than 1 the program spawns [n] workers, the
    worker of index [i] runs [subprocess_fn] with rank [i], the ranks are
    [0], ..., [n - 1] without repetition, and the first operation of each
    worker is [setup(rank, n)]; otherwise [subprocess_fn] runs once, in
    the main process, with rank 0, and calls neither [setup] nor
    [cleanup]. *)
Theorem main_dispatch (int : string -> option Z) (nnl : string -> bool)
    (L : Z -> library) (argv : list string) (s : store) (ns : namespace) (n : Z) :
  Argparse.parse_args nnl (the_parser int) argv = Argparse.Parsed ns ->
  ns_num_gpus ns = PInt n ->
  let a := {| config_path := ns_config_path ns; log := ns_log ns;
              num_gpus := n; distributed := n >? 1 |} in
  (1 < n ->
   exists workers,
     main int nnl L argv s = Spawned workers
     /\ length workers = Z.to_nat n
     /\ map fst workers = map Z.of_nat (seq 0 (Z.to_nat n))
     /\ NoDup (map fst workers)
     /\ Forall (fun w => 0 <= w.1 < n
                         /\ w.2 = subprocess_fn (L w.1) w.1 a s
                         /\ head (ops w.2) = Some (ESetup w.1 n)) workers)
  /\ (n <= 1 ->
      let r := subprocess_fn (L 0) 0 a s in
      main int nnl L argv s = InProcess r
      /\ setup_calls r = [] /\ cleanup_calls r = []).
Proof.
  intros Hparse Hn a. unfold main. rewrite Hparse, Hn. fold a. split.
  - intros Hgt. assert (distributed a = true) as Hd by (simpl; lia).
    rewrite Hd. eexists. split; [reflexivity|].
    split; [|split; [|split]].
    + unfold mp_spawn. by rewrite length_map, length_seq.
    + apply mp_spawn_ranks.
    + rewrite mp_spawn_ranks. apply NoDup_fmap_2; [apply _|apply NoDup_seq].
    + unfold mp_spawn. apply Forall_fmap, Forall_forall. intros i Hi. simpl.
      apply elem_of_seq in Hi. split; [simpl in *; lia|]. split; [done|].
      by apply subprocess_fn_setup_first.
  - intros Hle. assert (distributed a = false) as Hd by (simpl; lia).
    rewrite Hd. split; [done|].
    destruct (local_run_calls (L 0) 0 a s Hd) as (? & ? & _). by split.
Qed.

Lemma main_dispatch_witness :
  let int := int_of_decimal in
  let nnl := ascii_negative_number in
  let L := fun _ : Z => example_library (example_config false false) example_net in
  let argv := ["--config_path"; "configs/finetune/Re500-finetune.yaml"; "--num_gpus"; "2"] in
  let ns := {| ns_config_path := PStr "configs/finetune/Re500-finetune.yaml";
               ns_log := false; ns_num_gpus := PInt 2 |} in
  Argparse.parse_args nnl (the_parser int) argv = Argparse.Parsed ns
  /\ ns_num_gpus ns = PInt 2
  /\ exists workers,
       main int nnl L argv fresh_store = Spawned workers
       /\ map fst workers = [0; 1].
Proof.
  intros int nnl L argv ns.
  assert (Argparse.parse_args nnl (the_parser int) argv = Argparse.Parsed ns) as Hp
    by (vm_compute; reflexivity).
  split; [exact Hp|]. split; [reflexivity|].
  destruct (main_dispatch int nnl L argv fresh_store ns 2 Hp eq_refl) as [H _].
  destruct H as (workers & Hmain & _ & Hranks & _); [lia|].
  exists workers. split; [exact Hmain|exact Hranks].
Defined.

(** C10. A command line that parses and in which no word selects
    [--num_gpus] leaves the default 1, so [args.distributed] is false:
    the program runs [subprocess_fn] once, in the main process, with rank
    0, instead of spawning workers; that run calls neither [setup] nor
    [cleanup] and never wraps the model in [DistributedDataParallel]. *)
Theorem default_single_process (int : string -> option Z) (nnl : string -> bool)
    (L : Z -> library) (argv : list string) (s : store) (ns : namespace) :
  Argparse.parse_args nnl (the_parser int) argv = Argparse.Parsed ns ->
  Forall (fun w => selects nnl (the_parser int) "--num_gpus" w = false) argv ->
  let a := {| config_path := ns_config_path ns; log := ns_log ns;
              num_gpus := 1; distributed := false |} in
  let r := subprocess_fn (L 0) 0 a s in
  ns_num_gpus ns = PInt 1
  /\ main int nnl L argv s = InProcess r
  /\ setup_calls r = [] /\ cleanup_calls r = [] /\ wrappings r = [].
Proof.
  intros Hparse Hsel a r.
  pose proof (parse_args_default_num_gpus int nnl argv ns Hparse Hsel) as Hn.
  split; [done|]. split.
  - unfold main. by rewrite Hparse, Hn.
  - by apply local_run_calls.
Qed.

Lemma default_single_process_witness :
  let int := int_of_decimal in
  let nnl := ascii_negative_number in
  let L := fun _ : Z => example_library (example_config false false) example_net in
  let argv := ["--config_path"; "configs/finetune/Re500-finetune.yaml"; "--log"] in
  let ns := {| ns_config_path := PStr "configs/finetune/Re500-finetune.yaml";
               ns_log := true; ns_num_gpus := PInt 1 |} in
  Argparse.parse_args nnl (the_parser int) argv = Argparse.Parsed ns
  /\ Forall (fun w => selects nnl (the_parser int) "--num_gpus" w = false) argv
  /\ exists r, main int nnl L argv fresh_store = InProcess r
               /\ outcome r = inr tt /\ wrappings r = [].
Proof.
  intros int nnl L argv ns.
  assert (Argparse.parse_args nnl (the_parser int) argv = Argparse.Parsed ns) as Hp
    by (vm_compute; reflexivity).
  assert (Forall (fun w => selects nnl (the_parser int) "--num_gpus" w = false) argv)
    as Hs by (repeat constructor).
  split; [exact Hp|]. split; [exact Hs|].
  destruct (default_single_process int nnl L argv fresh_store ns Hp Hs)
    as (_ & Hmain & _ & _ & Hw).
  eexists. split; [exact Hmain|]. split; [vm_compute; reflexivity|exact Hw].
Defined.

(** C6 as stated: the parser built by the script also recognises [-h] and
    [--help], an option that is none of the three flags; the command line
    [--help] is accepted and ends the program with status 0, where an
    unknown option ends it with status 2. *)
Lemma help_option_accepted :
  let p := the_parser int_of_decimal in
  ~ (forall w a o e,
       Argparse.parse_optional ascii_negative_number p w
         = Argparse.Optional (Some a) o e ->
       o ∈ ["--config_path"; "--log"; "--num_gpus"])
  /\ Argparse.parse_args ascii_negative_number p ["--help"] = Argparse.Exit 0
  /\ Argparse.parse_args ascii_negative_number p ["--verbose"] = Argparse.Exit 2.
Proof.
  intros p. split; [|by split].
  intros H.
  specialize (H "--help" {| Argparse.option_strings := ["-h"; "--help"];
                            Argparse.kind := Argparse.Help |} "--help" None eq_refl).
  inv_elem H.
Qed.

(** C6, amended.  The options of the parser are [-h] and [--help], which
    argparse adds, and the three flags of the script.  Without arguments
    the result has no configuration path, [log] false and [num_gpus] 1;
    [--config_path] stores the word that follows as a string; [--log]
    stores true; [--num_gpus] stores what [int] makes of the word that
    follows, and the command line is refused if [int] rejects it.  In a
    command line that parses, every word is an argument or selects one of
    the three flags. *)
Theorem command_line_options (int : string -> option Z) (nnl : string -> bool) :
  let p := the_parser int in
  map fst (Argparse.option_table p)
    = ["-h"; "--help"; "--config_path"; "--log"; "--num_gpus"]
  /\ Argparse.parse_args nnl p []
       = Argparse.Parsed {| ns_config_path := PNone; ns_log := false;
                            ns_num_gpus := PInt 1 |}
  /\ (forall v, Argparse.parse_optional nnl p v = Argparse.Positional ->
        Argparse.parse_args nnl p ["--config_path"; v]
          = Argparse.Parsed {| ns_config_path := PStr v; ns_log := false;
                               ns_num_gpus := PInt 1 |})
  /\ Argparse.parse_args nnl p ["--log"]
       = Argparse.Parsed {| ns_config_path := PNone; ns_log := true;
                            ns_num_gpus := PInt 1 |}
  /\ (forall v, Argparse.parse_optional nnl p v = Argparse.Positional ->
        Argparse.parse_args nnl p ["--num_gpus"; v]
          = match int v with
            | Some n => Argparse.Parsed {| ns_config_path := PNone; ns_log := false;
                                           ns_num_gpus := PInt n |}
            | None => Argparse.Exit 2
            end)
  /\ (forall argv ns,
        Argparse.parse_args nnl p argv = Argparse.Parsed ns ->
        Forall (fun w => match Argparse.parse_optional nnl p w with
                         | Argparse.Positional => True
                         | Argparse.Optional (Some _) o _ =>
                             o ∈ ["--config_path"; "--log"; "--num_gpus"]
                         | _ => False
                         end) argv).
Proof.
  intros p.
  assert (forall v, Argparse.parse_optional nnl p v = Argparse.Positional -> v <> "--")
    as Hdd by (by intros v Hv ->).
  split; [done|]. split; [done|]. split; [|split; [done|split]].
  - intros v Hv. pose proof (Hdd v Hv) as Hne.
    unfold Argparse.parse_args. rewrite !classify_cons by done. rewrite Hv.
    destruct (Argparse.parse_optional nnl p "--config_path") eqn:E;
      vm_compute in E; simplify_eq.
    cbn -[bool_decide]. by rewrite get_values_single.
  - intros v Hv. pose proof (Hdd v Hv) as Hne.
    unfold Argparse.parse_args. rewrite !classify_cons by done. rewrite Hv.
    destruct (Argparse.parse_optional nnl p "--num_gpus") eqn:E;
      vm_compute in E; simplify_eq.
    cbn -[bool_decide]. rewrite get_values_single by done.
    by destruct (int v).
  - apply parse_args_words.
Qed.

Lemma command_line_options_witness :
  let p := the_parser int_of_decimal in
  Argparse.parse_optional ascii_negative_number p "4" = Argparse.Positional
  /\ Argparse.parse_args ascii_negative_number p ["--num_gpus"; "4"]
     = Argparse.Parsed {| ns_config_path := PNone; ns_log := false;
                          ns_num_gpus := PInt 4 |}.
Proof.
  intros p. split; [reflexivity|].
  destruct (command_line_options int_of_decimal ascii_negative_number)
    as (_ & _ & _ & _ & H & _).
  exact (H "4" eq_refl).
Defined.

(** ** Modules and their parameters *)

Lemma elem_of_dedup (seen l : list param) (p : param) :
  p ∈ dedup seen l <-> p ∈ l /\ p ∉ seen.
Proof.
  revert seen. induction l as [|q l IH]; intros seen; simpl.
  { split; [intros H; by apply elem_of_nil in H|intros [H _]; by apply elem_of_nil in H]. }
  case_bool_decide as Hq.
  - rewrite IH, elem_of_cons. split; [intros [? ?]; by auto|].
    intros [[->|?] ?]; by auto.
  - rewrite !elem_of_cons, IH, elem_of_cons. split.
    + intros [->|[? Hn]]; [by auto|]. split; [by auto|]. intros ?. apply Hn. by right.
    + intros [[->|?] Hn]; [by left|].
      destruct (decide (p = q)) as [->|Hpq]; [by left|right].
      split; [done|]. by intros [?|?].
Qed.

(** [parameters()] yields each tensor once. *)
Lemma NoDup_dedup (seen l : list param) : NoDup (dedup seen l).
Proof.
  revert seen. induction l as [|q l IH]; intros seen; simpl; [constructor|].
  case_bool_decide; [apply IH|]. constructor; [|apply IH].
  rewrite elem_of_dedup. intros [_ Hq']. apply Hq'. by left.
Qed.

Lemma NoDup_parameters m : NoDup (parameters m).
Proof. apply NoDup_dedup. Qed.

Lemma elem_of_parameters m p : p ∈ parameters m <-> p ∈ all_params m.
Proof.
  unfold parameters. rewrite elem_of_dedup. split; [by intros [? _]|].
  intros ?. split; [done|]. by intros ?%elem_of_nil.
Qed.

Lemma all_params_child m name c p :
  (name, c) ∈ children_of m -> p ∈ all_params c -> p ∈ all_params m.
Proof.
  destruct m as [k own ch]. simpl. intros Hin Hp. apply elem_of_app. right.
  induction ch as [|[n' c'] ch IH]; [by apply elem_of_nil in Hin|].
  apply elem_of_app. apply elem_of_cons in Hin as [Heq|Hin].
  - left. by simplify_eq.
  - right. by apply IH.
Qed.

Lemma lookup_child_elem name ch c :
  lookup_child name ch = Some c -> (name, c) ∈ ch.
Proof.
  induction ch as [|[n' c'] ch IH]; simpl; [done|].
  case_bool_decide as Hn; intros Heq.
  - simplify_eq. left.
  - right. by apply IH.
Qed.

(** The parameters of a submodule are parameters of the module. *)
Lemma getattr_parameters m name c p :
  getattr m name = inr c -> p ∈ parameters c -> p ∈ parameters m.
Proof.
  unfold getattr. destruct (lookup_child name (children_of m)) as [c'|] eqn:E; [|done].
  intros [= ->]. rewrite !elem_of_parameters.
  apply all_params_child with (name := name). by apply lookup_child_elem.
Qed.

Lemma getlast_parameters m c p :
  getlast m = inr c -> p ∈ parameters c -> p ∈ parameters m.
Proof.
  unfold getlast. destruct (kind_of m); [|done].
  destruct (last (children_of m)) as [[n c']|] eqn:E; [|done].
  intros [= ->]. rewrite !elem_of_parameters.
  apply all_params_child with (name := n). by apply last_elem_of.
Qed.

(** What the freezing step leaves behind, for a model whose four
    attributes resolve. *)
Lemma select_params_policy m l1 c1 l2 c2 f1 f2 (f : param -> bool) (ps : list param) :
  getattr m "sp_convs" = inr l1 -> getlast l1 = inr c1 ->
  getattr m "ws" = inr l2 -> getlast l2 = inr c2 ->
  getattr m "fc1" = inr f1 -> getattr m "fc2" = inr f2 ->
  let rg := set_flags (parameters f2) true
              (set_flags (parameters f1) true
                 (set_flags (parameters c2) true
                    (set_flags (parameters c1) true
                       (set_flags (parameters m) false f)))) in
  ps = filter (fun p => rg p = true) (parameters m) ->
  let tuned := fun p => p ∈ parameters c1 \/ p ∈ parameters c2
                        \/ p ∈ parameters f1 \/ p ∈ parameters f2 in
  (forall p, p ∈ ps <-> p ∈ parameters m /\ tuned p)
  /\ NoDup ps
  /\ (forall p, p ∈ parameters m -> (rg p = true <-> tuned p))
  /\ (forall p, tuned p -> p ∈ parameters m)
  /\ (forall p, p ∉ parameters m -> rg p = f p).
Proof.
  intros H1 H2 H3 H4 H5 H6 rg -> tuned.
  assert (forall p, tuned p -> p ∈ parameters m) as Hsub.
  { intros p [Hp|[Hp|[Hp|Hp]]].
    - eapply getattr_parameters; [exact H1|]. exact (getlast_parameters _ _ _ H2 Hp).
    - eapply getattr_parameters; [exact H3|]. exact (getlast_parameters _ _ _ H4 Hp).
    - exact (getattr_parameters _ _ _ _ H5 Hp).
    - exact (getattr_parameters _ _ _ _ H6 Hp). }
  assert (forall p, p ∈ parameters m -> (rg p = true <-> tuned p)) as Hrg.
  { intros p Hp. unfold rg, tuned, set_flags.
    repeat case_bool_decide; intuition congruence. }
  split; [|split; [|split; [done|split; [done|]]]].
  - intros p. rewrite list_elem_of_filter. split.
    + intros [Hp Hin]. split; [done|]. by apply Hrg.
    + intros [Hin Hp]. split; [by apply Hrg|done].
  - apply NoDup_filter, NoDup_parameters.
  - intros p Hp. unfold rg, set_flags.
    assert (~ tuned p) as Hnt by (intros Ht; by apply Hp, Hsub).
    unfold tuned in Hnt. repeat case_bool_decide; intuition congruence.
Qed.

(** ** The freezing policy in one process *)

Ltac solve_policy :=
  cbn [omap list_omap ops map event_of instances events final flags];
  cbn [flags] in *;
  intros ps Hps; inv_elem Hps;
  eexists _, _, _, _, _, _, _;
  (split; [reflexivity|]);
  repeat (split; [eassumption|]);
  eapply select_params_policy; first [eassumption | reflexivity].

(** X2.  In a run in one process the parameters [Adam] receives are those of
    the constructed model that belong to the last spectral convolution,
    to the last pointwise convolution or to one of the two projection
    layers, each once; among the parameters of the model exactly these
    require a gradient when the run ends, and the flags of all other
    parameters are as they were before the run. *)
Theorem single_process_unfreezing (L : library) (rank : Z) (a : args) (s : store) :
  distributed a = false ->
  let r := subprocess_fn L rank a s in
  forall ps, ps ∈ adam_calls r ->
    exists m l1 c1 l2 c2 f1 f2,
      instances r = [m]
      /\ getattr m "sp_convs" = inr l1 /\ getlast l1 = inr c1
      /\ getattr m "ws" = inr l2 /\ getlast l2 = inr c2
      /\ getattr m "fc1" = inr f1 /\ getattr m "fc2" = inr f2
      /\ let tuned := fun p => p ∈ parameters c1 \/ p ∈ parameters c2
                               \/ p ∈ parameters f1 \/ p ∈ parameters f2 in
         (forall p, p ∈ ps <-> p ∈ parameters m /\ tuned p)
         /\ NoDup ps
         /\ (forall p, p ∈ parameters m -> (flags (final r) p = true <-> tuned p))
         /\ (forall p, tuned p -> p ∈ parameters m)
         /\ (forall p, p ∉ parameters m -> flags (final r) p = flags s p).
Proof.
  intros Hd r.
  to_digest on_model r. set (d := digest on_model r). subst r.
  run_digest d.
  all: first
    [ by (cbn [omap list_omap ops map event_of events]; intros ps Hps;
          apply elem_of_nil in Hps)
    | solve_policy ].
Qed.

Lemma single_process_unfreezing_witness :
  let L := example_library (example_config false true) example_net in
  let a := example_args 1 in
  let r := subprocess_fn L 0 a fresh_store in
  distributed a = false
  /\ [6; 7; 8; 9; 12; 13; 14; 15; 16; 17]%nat ∈ adam_calls r
  /\ exists m, instances r = [m]
       /\ forall p, p ∈ [6; 7; 8; 9; 12; 13; 14; 15; 16; 17]%nat -> p ∈ parameters m.
Proof.
  intros L a r.
  assert ([6; 7; 8; 9; 12; 13; 14; 15; 16; 17]%nat ∈ adam_calls r) as Hin
    by (vm_compute; apply list_elem_of_here).
  split; [reflexivity|]. split; [exact Hin|].
  destruct (single_process_unfreezing L 0 a fresh_store eq_refl _ Hin)
    as (m & l1 & c1 & l2 & c2 & f1 & f2 & Hm & _ & _ & _ & _ & _ & _ & Hps & _).
  exists m. split; [exact Hm|]. intros p Hp. by apply Hps.
Defined.

(** ** The arguments of the library calls *)

Ltac solve_fixed :=
  cbn [fixed_arguments event_of t_rank t_log t_profile];
  first [exact I | reflexivity | by repeat split].

Lemma subprocess_fn_fixed (L : library) (rank : Z) (a : args) :
  every (fixed_arguments rank a) (subprocess_fn L rank a).
Proof. run_every solve_fixed. Qed.

(** X3.  Whatever the libraries do, [subprocess_fn] names its own rank as the
    device of the network and of the forcing term, as the only device of the
    wrapper and as the rank of [setup] and [train]; it opens the file the
    command line names, passes [args.distributed] to the sampler and
    [args.log] to [train], and the constants of the source are what the
    calls get: [drop_last=True], [broadcast_buffers=False],
    [betas=(0.9, 0.999)], [profile=True] and the key [model] of the
    checkpoint. *)
Theorem arguments_from_rank_and_args (L : library) (rank : Z) (a : args) (s : store) :
  Forall (fixed_arguments rank a) (events (subprocess_fn L rank a s)).
Proof. apply subprocess_fn_fixed. Qed.

Ltac solve_keyed :=
  cbn [keyed_entry event_of t_config t_project t_group];
  first
    [ exact I
    | eexists; repeat split; eassumption
    | split; [reflexivity | eexists; repeat split; eassumption] ].

Lemma subprocess_fn_keyed (L : library) (rank : Z) (a : args) config :
  loads L a config -> every (keyed_entry config) (subprocess_fn L rank a).
Proof.
  intros (stream & Hopen & Hload). run_every solve_keyed.
Qed.

(** X4.  When the configuration loads, each hyperparameter a call receives is
    the value under its own key: [n_sample], [offset] and [shuffle] of
    [data] for the dataset ([shuffle] again for the sampler), [batchsize]
    of [train] for the loader, the five keys of [model] for the network,
    [ckpt], [base_lr], [milestones] and [scheduler_gamma] of [train] for
    the checkpoint, the optimizer and the scheduler, [project] and [group]
    of [others] for [train], which also gets the whole configuration. *)
Theorem arguments_from_keys (L : library) (rank : Z) (a : args) (s : store)
    (config : yaml) :
  loads L a config ->
  Forall (keyed_entry config) (events (subprocess_fn L rank a s)).
Proof. intros Hload. by apply subprocess_fn_keyed. Qed.

Lemma arguments_from_keys_witness :
  let config := example_config false true in
  let L := example_library config example_net in
  let a := example_args 1 in
  let r := subprocess_fn L 0 a fresh_store in
  loads L a config
  /\ Forall (keyed_entry config) (events r)
  /\ adam_calls r <> [].
Proof.
  intros config L a r.
  assert (loads L a config) as Hl by (exists 1%nat; split; reflexivity).
  split; [exact Hl|].
  split; [exact (arguments_from_keys L 0 a fresh_store config Hl)|].
  vm_compute. discriminate.
Defined.

Ltac solve_dataflow :=
  cbn [dataflow_entry event_of t_model t_loader t_train_loader t_optimizer
         t_scheduler t_forcing];
  first [ exact I | repeat first [ eassumption | split | eexists ] ].

Lemma subprocess_fn_dataflow (L : library) (rank : Z) (a : args) :
  every (dataflow_entry L rank) (subprocess_fn L rank a).
Proof. run_every solve_dataflow. Qed.

(** X5.  Every object [subprocess_fn] hands to a library call is what an
    earlier call returned: the dataset comes from the loader, the sampler
    and the data loader from the dataset, the state dict from the
    checkpoint [torch.load] returned, the scheduler from the optimizer,
    the forcing term from [loader.S] through [get_forcing] and [.to(rank)];
    [train] gets the constructed network, the loader, the data loader, the
    optimizer, the scheduler built on it and that forcing term. *)
Theorem objects_from_earlier_calls (L : library) (rank : Z) (a : args) (s : store) :
  Forall (dataflow_entry L rank) (events (subprocess_fn L rank a s)).
Proof. apply subprocess_fn_dataflow. Qed.

(** ** The process group and the console *)

Lemma set_flags_notin ps b f p : p ∉ ps -> set_flags ps b f p = f p.
Proof. intros Hp. unfold set_flags. by rewrite bool_decide_eq_false_2. Qed.

Ltac solve_console :=
  cbn;
  split; [first [reflexivity | congruence]|];
  split; [reflexivity|];
  split; [first [ by left | by (right; left) | by (right; right; left; eexists)
                | by (right; right; right; left)
                | by (right; right; right; right; eexists) ]|];
  split; [split; [intros Hin; inv_elem Hin; first [reflexivity | discriminate]
                 |intros; first [discriminate | solve_elem]]|];
  split; [intros p; split;
          [intros Hin; inv_elem Hin; (split; [reflexivity|by eexists])
          |intros (Heq & sd & Hsd);
           first [discriminate | (injection Heq as <-; solve_elem)]]|];
  intros Hnil; first [discriminate | by eexists].

(** X6.  What a run calls on the process group and prints.  [setup] is called
    once, with the rank and the number of processes, exactly in a
    distributed run; no run calls [cleanup].  The run prints at most three
    lines, in this order: that it is running, that the weights were loaded
    (with the path [torch.load] was given, and only after
    [load_state_dict] accepted them), that it is done.  It prints the last
    line exactly when it returns, and nothing at all only when [setup]
    raised. *)
Theorem console_and_process_group (L : library) (rank : Z) (a : args) (s : store) :
  let r := subprocess_fn L rank a s in
  setup_calls r = (if distributed a then [(rank, num_gpus a)] else [])
  /\ cleanup_calls r = []
  /\ (prints r = []
      \/ prints r = [MsgRunning rank]
      \/ (exists p, prints r = [MsgRunning rank; MsgWeightsLoaded p])
      \/ prints r = [MsgRunning rank; MsgDone rank]
      \/ (exists p, prints r = [MsgRunning rank; MsgWeightsLoaded p; MsgDone rank]))
  /\ (MsgDone rank ∈ prints r <-> outcome r = inr tt)
  /\ (forall p, MsgWeightsLoaded p ∈ prints r
                <-> torch_loads r = [p] /\ exists sd, loaded r = [sd])
  /\ (prints r = [] -> exists x, setup L rank (num_gpus a) = inl x).
Proof.
  destruct (distributed a) eqn:Hd; intros r.
  all: unfold prints; to_digest on_console r; set (d := digest on_console r); subst r.
  all: run_digest d.
  all: solve_console.
Qed.

(** ** What the freezing step leaves alone *)

(** The parameters of the submodules the script reached are not the
    parameter [p], which is none of the model's. *)
Ltac outside_submodules :=
  repeat match goal with
         | Hn : ?p ∉ parameters ?m, H : getattr ?m _ = inr ?c |- _ =>
             lazymatch goal with
             | _ : p ∉ parameters c |- _ => fail
             | _ => assert (p ∉ parameters c)
                      by (let Hc := fresh in intros Hc; apply Hn;
                          exact (getattr_parameters _ _ _ _ H Hc))
             end
         | Hn : ?p ∉ parameters ?m, H : getlast ?m = inr ?c |- _ =>
             lazymatch goal with
             | _ : p ∉ parameters c |- _ => fail
             | _ => assert (p ∉ parameters c)
                      by (let Hc := fresh in intros Hc; apply Hn;
                          exact (getlast_parameters _ _ _ H Hc))
             end
         end.

Ltac solve_frame :=
  cbn [omap list_omap ops map event_of instances events final flags];
  intros p Hp;
  first
    [ reflexivity
    | assert (forall m, p ∉ parameters (DDP_wrapper m) <-> p ∉ parameters m)
        as Hw by (intros m; by rewrite parameters_wrapper);
      match goal with
      | |- context [set_flags (parameters (DDP_wrapper ?m)) false _] =>
          assert (p ∉ parameters m) by (apply Hp; solve_elem)
      | |- context [set_flags (parameters ?m) false _] =>
          assert (p ∉ parameters m) by (apply Hp; solve_elem)
      end;
      outside_submodules;
      repeat (rewrite set_flags_notin by first [assumption | by apply Hw]);
      reflexivity ].

(** X7.  Whatever happens in a run, the [requires_grad] flag of a tensor that
    is not a parameter of the network the constructor returned is left as
    it was: the freezing step only touches the model. *)
Theorem flags_outside_model (L : library) (rank : Z) (a : args) (s : store) :
  let r := subprocess_fn L rank a s in
  forall p, (forall m, m ∈ instances r -> p ∉ parameters m) ->
            flags (final r) p = flags s p.
Proof.
  destruct (distributed a) eqn:Hd; intros r.
  all: to_digest on_model r; set (d := digest on_model r); subst r.
  all: run_digest d.
  all: solve_frame.
Qed.

Lemma flags_outside_model_witness :
  let L := example_library (example_config false true) example_net in
  let r := subprocess_fn L 0 (example_args 1) fresh_store in
  (forall m, m ∈ instances r -> 100%nat ∉ parameters m)
  /\ flags (final r) 100%nat = flags fresh_store 100%nat.
Proof.
  intros L r.
  assert (forall m, m ∈ instances r -> 100%nat ∉ parameters m) as Hout.
  { intros m Hm. vm_compute in Hm. inv_elem Hm. vm_compute. intros H. inv_elem H. }
  split; [exact Hout|].
  exact (flags_outside_model L 0 (example_args 1) fresh_store 100%nat Hout).
Defined.

(** ** Command lines that do not launch *)

Section ExitStatus.

Import Argparse.

Context {NS : Type}.

Lemma take_actions_Exit (l : list (action NS * list string)) (ns : NS) c :
  take_actions l ns = Exit c -> c = 0 \/ c = 2.
Proof.
  revert ns. induction l as [|[a vs] l IH]; intros ns; simpl; [done|].
  destruct (kind a) as [type set|set|].
  - destruct (get_values type vs); [apply IH|]. intros [= <-]. by right.
  - apply IH.
  - intros [= <-]. by left.
Qed.

Lemma consume_Exit (p : parser NS) ws extras (ns : NS) c :
  consume p ws extras ns = Exit c -> c = 0 \/ c = 2.
Proof.
  remember (length ws) as n eqn:Hn.
  assert (length ws <= n)%nat as Hlen by lia. clear Hn.
  revert ws Hlen extras ns. induction n as [|n IH]; intros ws Hlen extras ns H.
  { destruct ws; [|simpl in Hlen; lia]. simpl in H.
    destruct extras; [done|]. injection H as <-. by right. }
  destruct ws as [|[w cl] rest].
  { simpl in H. destruct extras; [done|]. injection H as <-. by right. }
  simpl in Hlen.
  assert (consume p rest (extras ++ [w]) ns = Exit c -> c = 0 \/ c = 2) as Hextra.
  { apply IH. lia. }
  destruct cl as [[|[a|] o e|]|]; try (by apply Hextra).
  simpl in H.
  destruct (taken_by p a o e rest) as [[l used]|]; [|injection H as <-; by right].
  destruct (take_actions l ns) as [ns1|c1] eqn:Ea.
  - assert (consume p (if used then tail rest else rest) extras ns1 = Exit c) as Hrec.
    { by destruct rest, used. }
    apply IH in Hrec; [done|]. destruct used, rest; simpl in *; lia.
  - injection H as <-. by eapply take_actions_Exit.
Qed.

Lemma parse_args_Exit nnl (p : parser NS) argv c :
  parse_args nnl p argv = Exit c -> c = 0 \/ c = 2.
Proof.
  unfold parse_args. destruct (classify nnl p argv).
  - apply consume_Exit.
  - intros [= <-]. by right.
Qed.

(** The words an action is given: one for [store], none for the
    others. *)
Lemma take_following_values (a : action NS) rest vs used :
  take_following a rest = Some (vs, used) ->
  match kind a with Store _ _ => exists v, vs = [v] | _ => vs = [] end.
Proof.
  unfold take_following. destruct (kind a).
  - destruct rest as [|[v [[| |]|]] rest']; try done. intros [= <- <-]. eauto.
  - by intros [= <- <-].
  - by intros [= <- <-].
Qed.

Lemma take_explicit_values (p : parser NS) a o e rest l used :
  take_explicit p a o e rest = Some (l, used) ->
  Forall (fun avs => match kind avs.1 with
                     | Store _ _ => exists v, avs.2 = [v]
                     | _ => avs.2 = []
                     end) l.
Proof.
  revert a o l. induction e as [|c e IH]; intros a o l; simpl.
  { destruct (kind a) eqn:Ek; [|by destruct (second_is_dash o)..].
    intros [= <- <-]. apply Forall_cons; split; [|by apply Forall_nil].
    simpl. rewrite Ek. eauto. }
  destruct (kind a) eqn:Ek;
    [intros [= <- <-]; apply Forall_cons; split; [|by apply Forall_nil];
     simpl; rewrite Ek; eauto| |];
    (destruct (second_is_dash o); [done|];
     destruct (find_option _ _) as [a'|]; [|done];
     destruct e as [|c' e'];
     [ destruct (take_following a' rest) as [[vs u]|] eqn:Ef; [|done];
       intros [= <- <-];
       apply take_following_values in Ef;
       apply Forall_cons; split; [by simpl; rewrite Ek|];
       apply Forall_cons; split; [done|by apply Forall_nil]
     | destruct (take_explicit p a' _ (String c' e') rest) as [[l' u]|] eqn:E;
       [|done]; intros [= <- <-];
       apply IH in E;
       apply Forall_cons; split; [by simpl; rewrite Ek|done] ]).
Qed.

Lemma taken_by_values (p : parser NS) a o e rest l used :
  taken_by p a o e rest = Some (l, used) ->
  Forall (fun avs => match kind avs.1 with
                     | Store _ _ => exists v, avs.2 = [v]
                     | _ => avs.2 = []
                     end) l.
Proof.
  unfold taken_by. destruct e.
  - apply take_explicit_values.
  - destruct (take_following a rest) as [[vs u]|] eqn:Ef; [|done].
    intros [= <- <-]. apply take_following_values in Ef.
    apply Forall_cons; split; [done|by apply Forall_nil].
Qed.

(** One word given to [store] is converted, unless it is ['--'], which
    leaves the empty list. *)
Lemma get_values_one (type : string -> option pyval) v :
  get_values type [v] = if bool_decide (v = "--") then Some (PList []) else type v.
Proof. unfold get_values. simpl. by case_bool_decide. Qed.

End ExitStatus.

(** *** What [--num_gpus] can store *)

Section NumGpus.

Import Argparse.

Variable int : string -> option Z.
Variable nnl : string -> bool.

Lemma take_actions_num_gpus_int l ns ns1 :
  Forall (fun avs => (exists o, (o, avs.1) ∈ option_table (the_parser int))
                     /\ match kind avs.1 with
                        | Store _ _ => exists v, avs.2 = [v]
                        | _ => avs.2 = []
                        end) l ->
  take_actions l ns = Parsed ns1 ->
  (exists n, ns_num_gpus ns = PInt n) \/ ns_num_gpus ns = PList [] ->
  (exists n, ns_num_gpus ns1 = PInt n) \/ ns_num_gpus ns1 = PList [].
Proof.
  intros Hl. revert ns.
  induction Hl as [|[a vs] l [(o & Hin) Hvs] _ IH]; intros ns; simpl.
  { by intros [= <-]. }
  simpl in Hin, Hvs.
  apply the_parser_table in Hin as [[Hk _]|[[_ Hk]|[[_ Hk]|[_ Hk]]]];
    rewrite Hk in Hvs |- *; [done| | |].
  - destruct (get_values _ vs); [|done]. intros Ht Hns. by apply (IH _ Ht).
  - intros Ht Hns. by apply (IH _ Ht).
  - destruct Hvs as [v ->]. rewrite get_values_one.
    case_bool_decide.
    + intros Ht _. apply (IH _ Ht). by right.
    + destruct (int v) as [n|]; [|done]. intros Ht _. apply (IH _ Ht).
      left. by exists n.
Qed.

Lemma consume_num_gpus_int ws extras ns ns' :
  consume (the_parser int) ws extras ns = Parsed ns' ->
  Forall (fun wc => forall a o e,
            wc.2 = Some (Optional (Some a) o e) ->
            (o, a) ∈ option_table (the_parser int)) ws ->
  (exists n, ns_num_gpus ns = PInt n) \/ ns_num_gpus ns = PList [] ->
  (exists n, ns_num_gpus ns' = PInt n) \/ ns_num_gpus ns' = PList [].
Proof.
  intros H.
  apply (consume_Parsed_ind (the_parser int) (fun ws ns ns' =>
    Forall (fun wc => forall a o e,
              wc.2 = Some (Optional (Some a) o e) ->
              (o, a) ∈ option_table (the_parser int)) ws ->
    (exists n, ns_num_gpus ns = PInt n) \/ ns_num_gpus ns = PList [] ->
    (exists n, ns_num_gpus ns' = PInt n) \/ ns_num_gpus ns' = PList []))
    in H as [_ H]; [done|done|].
  clear. intros w a o e rest l used ns ns1 ns' Ht Ha IH Hws Hns.
  apply Forall_cons in Hws as [Hw Hrest].
  pose proof (Hw a o e eq_refl) as Hin.
  apply IH.
  - destruct used; [|done]. destruct rest; [done|].
    by apply Forall_cons in Hrest as [_ ?].
  - apply (take_actions_num_gpus_int l ns); [|done|done].
    pose proof (taken_by_values _ _ _ _ _ _ _ Ht) as Hv.
    apply taken_by_actions in Ht as (vs & l' & -> & Hl').
    apply Forall_cons in Hv as [Hv Hv'].
    apply Forall_cons; split; [split; [by exists o|done]|].
    rewrite Forall_forall in Hl', Hv'. apply Forall_forall. intros avs Havs.
    split; [|by apply Hv'].
    destruct (Hl' _ Havs) as (o' & _ & Hin'). by exists o'.
Qed.

(** In a command line that parses, [num_gpus] is an [int] or the empty
    list. *)
Lemma parse_args_num_gpus_int argv ns :
  parse_args nnl (the_parser int) argv = Parsed ns ->
  (exists n, ns_num_gpus ns = PInt n) \/ ns_num_gpus ns = PList [].
Proof.
  unfold parse_args. destruct (classify _ _ argv) as [ws|] eqn:Ec; [|done].
  intros Hc.
  pose proof (consume_Parsed_words _ _ _ _ _ Hc) as Hw.
  apply classify_words in Ec.
  2:{ eapply Forall_impl; [exact Hw|]. intros [w c] [Hp|(a & o & e & Hp & _)];
        simpl in *; by rewrite Hp. }
  apply consume_num_gpus_int in Hc; [done| |left; by exists 1].
  rewrite Ec. apply Forall_fmap, Forall_forall.
  intros w _ a o e [= Hp]. by eapply parse_optional_table.
Qed.

End NumGpus.

(** X8.  The program ends before [subprocess_fn] in three ways only: with
    the exit status 0 or 2 of argparse, or with the [TypeError] of the
    comparison [args.num_gpus > 1], which is raised exactly when the
    parser stored the empty list under [num_gpus]; otherwise [num_gpus]
    is an [int] and a run is launched.  A command line with a word that
    looks like an option and selects none, or abbreviates several, never
    launches a run: the program exits, with status 0 or 2. *)
Theorem command_line_errors (int : string -> option Z) (nnl : string -> bool)
    (L : Z -> library) (s : store) :
  (forall argv,
     match main int nnl L argv s with
     | Exited c =>
         (c = 0 \/ c = 2)
         /\ Argparse.parse_args nnl (the_parser int) argv = Argparse.Exit c
     | Uncaught x =>
         x = TypeError
         /\ exists ns,
              Argparse.parse_args nnl (the_parser int) argv = Argparse.Parsed ns
              /\ ns_num_gpus ns = PList []
     | InProcess _ | Spawned _ =>
         exists ns n,
           Argparse.parse_args nnl (the_parser int) argv = Argparse.Parsed ns
           /\ ns_num_gpus ns = PInt n
     end)
  /\ (forall argv w,
        w ∈ argv ->
        match Argparse.parse_optional nnl (the_parser int) w with
        | Argparse.Optional None _ _ | Argparse.Ambiguous => True
        | _ => False
        end ->
        exists c, main int nnl L argv s = Exited c /\ (c = 0 \/ c = 2)).
Proof.
  split.
  - intros argv. unfold main.
    destruct (Argparse.parse_args nnl (the_parser int) argv) as [ns|c] eqn:E.
    + destruct (parse_args_num_gpus_int int nnl argv ns E) as [[n Hn]|Hn];
        rewrite Hn.
      * destruct (_ >? _); by exists ns, n.
      * split; [done|]. by exists ns.
    + split; [|done]. by eapply parse_args_Exit.
  - intros argv w Hin Hw. unfold main.
    destruct (Argparse.parse_args nnl (the_parser int) argv) as [ns|c'] eqn:E.
    + apply parse_args_words in E. rewrite Forall_forall in E. specialize (E w Hin).
      by destruct (Argparse.parse_optional nnl (the_parser int) w) as [|[]|].
    + exists c'. split; [done|]. by eapply parse_args_Exit.
Qed.

Lemma command_line_errors_witness :
  let L := fun _ : Z => example_library (example_config false false) example_net in
  let main' := fun argv => main int_of_decimal ascii_negative_number L argv fresh_store in
  "--epochs" ∈ ["--epochs"; "3"]
  /\ main' ["--epochs"; "3"] = Exited 2
  /\ main' ["--help"] = Exited 0
  /\ main' ["--num_gpus=--"] = Uncaught TypeError
  /\ exists ns, Argparse.parse_args ascii_negative_number (the_parser int_of_decimal)
                  ["--num_gpus=--"] = Argparse.Parsed ns
                /\ ns_num_gpus ns = PList [].
Proof.
  intros L main'.
  assert ("--epochs" ∈ ["--epochs"; "3"]) as Hin by apply list_elem_of_here.
  split; [exact Hin|].
  destruct (command_line_errors int_of_decimal ascii_negative_number L fresh_store)
    as [Hall Hu].
  destruct (Hu ["--epochs"; "3"] "--epochs" Hin I) as (c & Hmain & _).
  split; [reflexivity|]. split; [reflexivity|].
  pose proof (Hall ["--num_gpus=--"]) as H.
  assert (main int_of_decimal ascii_negative_number L ["--num_gpus=--"] fresh_store
          = Uncaught TypeError) as Hm by reflexivity.
  rewrite Hm in H. split; [exact Hm|]. exact (proj2 H).
Defined.
